(** * Semantics-description pipeline (wren-ai-service)

    A shallow embedding of
    [src/pipelines/generation/semantics_description.py]: the four pipeline
    stages [picked_models], [prompt], [generate] and [post_process], and the
    [SemanticsDescription.run] entry point that sequences them.

    Python objects are embedded as a tree of values, exceptions as the left
    summand of a sum type, and the effects of the code (log records, calls of
    the external generator) as the trace of events a stage emits.  Where a
    property is about object identity (what [picked_models] leaves
    untouched), the same function is embedded a second time over an explicit
    object store, and the two embeddings are shown to agree.  The
    invocations of [run] that share a pipeline instance are embedded as
    tasks that a scheduler interleaves at the one [await]. *)

From Stdlib Require Import ZArith NArith List Bool Lia String Ascii.
From Stdlib Require Import Floats.SpecFloat.
From stdpp Require Import gmap.

Import ListNotations.
Set Warnings "-register-all".
Local Open Scope Z_scope.
Local Open Scope list_scope.

(** ** Python strings *)

(** A [str] is a sequence of Unicode code points. *)
Definition char : Type := N.
Definition str : Type := list char.

(** The ASCII string literals of the source, written as Rocq strings:
    each character is its code point. *)
Definition lit (s : string) : str :=
  List.map N_of_ascii (list_ascii_of_string s).

Fixpoint str_eqb (a b : str) : bool :=
  match a, b with
  | [], [] => true
  | x :: a', y :: b' => N.eqb x y && str_eqb a' b'
  | _, _ => false
  end.

Lemma str_eqb_eq (a b : str) : str_eqb a b = true <-> a = b.
Proof.
  revert b. induction a as [|x a IH]; intros [|y b]; simpl;
    try (split; [discriminate | congruence]); [tauto|].
  rewrite andb_true_iff, N.eqb_eq, IH.
  split; [intros [-> ->]; reflexivity | intros H; injection H; auto].
Qed.

Lemma str_eqb_refl (a : str) : str_eqb a a = true.
Proof. now apply str_eqb_eq. Qed.

Definition LF : char := 10%N.
Definition SP : char := 32%N.

(** [str.isspace] on one code point: the characters CPython's
    [str.split()] and [str.strip()] treat as whitespace. *)
Definition isspace (c : char) : bool :=
  (((9 <=? c) && (c <=? 13)) || ((28 <=? c) && (c <=? 32))
   || (c =? 133) || (c =? 160) || (c =? 5760)
   || ((8192 <=? c) && (c <=? 8202))
   || (c =? 8232) || (c =? 8233) || (c =? 8239) || (c =? 8287)
   || (c =? 12288))%N.

(** [text.replace(old, new)] for one-character [old] and [new]. *)
Definition replace (old new : char) (text : str) : str :=
  List.map (fun c => if N.eqb c old then new else c) text.

(** A finished word is emitted only when it is not empty. *)
Definition flush (word : str) : list str :=
  match word with
  | [] => []
  | _ => [word]
  end.

(** [text.split()]: scan left to right, [word] is the word being read. *)
Fixpoint split_from (word : str) (text : str) : list str :=
  match text with
  | [] => flush word
  | c :: rest =>
      if isspace c then flush word ++ split_from [] rest
      else split_from (word ++ [c]) rest
  end.

Definition split (text : str) : list str := split_from [] text.

(** [sep.join(words)]. *)
Fixpoint join (sep : str) (words : list str) : str :=
  match words with
  | [] => []
  | [w] => w
  | w :: ws => w ++ sep ++ join sep ws
  end.

Fixpoint lstrip (text : str) : str :=
  match text with
  | [] => []
  | c :: rest => if isspace c then lstrip rest else text
  end.

Definition rstrip (text : str) : str := rev (lstrip (rev text)).

(** [text.strip()]. *)
Definition strip (text : str) : str := rstrip (lstrip text).

(** The first two statements of [post_process.normalize] (lines 47-48):
    [text = text.replace("\n", " "); text = " ".join(text.split())]. *)
Definition normalize_text (text : str) : str :=
  let text := replace LF SP text in
  join [SP] (split text).

(** *** Facts about splitting and joining *)

Definition is_word (w : str) : Prop :=
  w <> [] /\ Forall (fun c => isspace c = false) w.

Lemma flush_app (w : str) (c : char) : flush (w ++ [c]) = [w ++ [c]].
Proof. destruct w; reflexivity. Qed.

Lemma split_from_words (word text : str) :
  Forall (fun c => isspace c = false) word ->
  Forall is_word (split_from word text).
Proof.
  revert word. induction text as [|c rest IH]; intros word Hw; simpl.
  - destruct word; simpl; constructor; [|constructor].
    split; [discriminate | exact Hw].
  - destruct (isspace c) eqn:Hc.
    + apply Forall_app. split.
      * destruct word; simpl; constructor; [|constructor].
        split; [discriminate | exact Hw].
      * apply IH. constructor.
    + apply IH. apply Forall_app. split; [exact Hw|].
      constructor; [exact Hc | constructor].
Qed.

Lemma split_words (text : str) : Forall is_word (split text).
Proof. apply split_from_words. constructor. Qed.

Lemma split_from_nonspace (u word text : str) :
  Forall (fun c => isspace c = false) u ->
  split_from word (u ++ text) = split_from (word ++ u) text.
Proof.
  revert word. induction u as [|c u IH]; intros word Hu; simpl.
  - now rewrite app_nil_r.
  - inversion Hu as [|? ? Hc Hu']; subst. rewrite Hc.
    rewrite IH by assumption. now rewrite <- app_assoc.
Qed.

Lemma split_join (words : list str) :
  Forall is_word words -> split (join [SP] words) = words.
Proof.
  unfold split. induction words as [|w ws IH]; intros Hws; [reflexivity|].
  inversion Hws as [|? ? [Hne Hw] Hws']; subst.
  destruct ws as [|w' ws'].
  - simpl. rewrite <- (app_nil_r w) at 1.
    rewrite split_from_nonspace by assumption. simpl.
    destruct w; [contradiction | reflexivity].
  - change (join [SP] (w :: w' :: ws'))
      with (w ++ [SP] ++ join [SP] (w' :: ws')).
    rewrite split_from_nonspace by assumption.
    simpl app at 1. cbn [split_from app].
    change (isspace SP) with true. cbn iota.
    rewrite IH by assumption.
    destruct w; [contradiction | reflexivity].
Qed.

Lemma replace_id (old new : char) (text : str) :
  Forall (fun c => N.eqb c old = false) text -> replace old new text = text.
Proof.
  induction 1 as [|c l Hc _ IH]; simpl; [reflexivity|].
  rewrite Hc. now f_equal.
Qed.

Lemma join_no_newline (words : list str) :
  Forall is_word words ->
  Forall (fun c => N.eqb c LF = false) (join [SP] words).
Proof.
  assert (Hlf : forall w, Forall (fun c => isspace c = false) w ->
                          Forall (fun c => N.eqb c LF = false) w).
  { intros w Hw. eapply List.Forall_impl; [|exact Hw]. intros c Hc.
    destruct (N.eqb c LF) eqn:E; [|reflexivity].
    apply N.eqb_eq in E. subst c. discriminate Hc. }
  induction words as [|w ws IH]; intros Hws; [constructor|].
  inversion Hws as [|? ? [_ Hw] Hws']; subst.
  destruct ws as [|w' ws'].
  - simpl. auto.
  - change (join [SP] (w :: w' :: ws'))
      with (w ++ [SP] ++ join [SP] (w' :: ws')).
    apply Forall_app. split; [auto|].
    apply Forall_app. split; [repeat constructor | auto].
Qed.

(** C5. The whitespace normalization of [post_process.normalize] (replace
    newlines by spaces, then split on whitespace and join with single
    spaces) is idempotent: normalizing an already normalized string returns
    it unchanged. *)
Theorem normalize_text_idempotent (text : str) :
  normalize_text (normalize_text text) = normalize_text text.
Proof.
  unfold normalize_text.
  pose proof (split_words (replace LF SP text)) as Hw.
  rewrite (replace_id LF SP (join [SP] _)) by now apply join_no_newline.
  now rewrite split_join.
Qed.

(** [text.strip()] has nothing left to remove after the normalization. *)
Lemma lstrip_word_app (w rest : str) :
  is_word w -> lstrip (w ++ rest) = w ++ rest.
Proof.
  intros [Hne Hw]. destruct w as [|c w]; [contradiction|].
  inversion Hw as [|? ? Hc _]; subst. simpl. now rewrite Hc.
Qed.

Lemma join_cons_word (w : str) (ws : list str) :
  exists rest, join [SP] (w :: ws) = w ++ rest.
Proof.
  destruct ws as [|w' ws'].
  - exists []. simpl. now rewrite app_nil_r.
  - exists ([SP] ++ join [SP] (w' :: ws')). reflexivity.
Qed.

Lemma lstrip_join (words : list str) :
  Forall is_word words -> lstrip (join [SP] words) = join [SP] words.
Proof.
  intros Hws. destruct words as [|w ws]; [reflexivity|].
  inversion Hws as [|? ? Hw _]; subst.
  destruct (join_cons_word w ws) as [rest ->]. now apply lstrip_word_app.
Qed.

Lemma rev_join (words : list str) :
  rev (join [SP] words) = join [SP] (rev (List.map (@rev char) words)).
Proof.
  assert (Hsnoc : forall (ws : list str) (w : str), ws <> [] ->
            join [SP] (ws ++ [w]) = join [SP] ws ++ [SP] ++ w).
  { induction ws as [|a ws IH]; intros w Hne; [contradiction|].
    destruct ws as [|b ws]; [reflexivity|].
    change (join [SP] ((a :: b :: ws) ++ [w]))
      with (a ++ [SP] ++ join [SP] ((b :: ws) ++ [w])).
    rewrite IH by discriminate.
    change (join [SP] (a :: b :: ws)) with (a ++ [SP] ++ join [SP] (b :: ws)).
    now rewrite <- !app_assoc. }
  induction words as [|w ws IH]; [reflexivity|].
  destruct ws as [|w' ws'].
  - reflexivity.
  - change (join [SP] (w :: w' :: ws'))
      with (w ++ [SP] ++ join [SP] (w' :: ws')).
    rewrite !rev_app_distr, IH.
    change (List.map (@rev char) (w :: w' :: ws'))
      with (rev w :: List.map (@rev char) (w' :: ws')).
    change (rev (rev w :: List.map (@rev char) (w' :: ws')))
      with (rev (List.map (@rev char) (w' :: ws')) ++ [rev w]).
    rewrite Hsnoc.
    + now rewrite <- !app_assoc.
    + simpl. intros H. apply app_eq_nil in H as [_ H]. discriminate H.
Qed.

Lemma strip_normalize_text (text : str) :
  strip (normalize_text text) = normalize_text text.
Proof.
  unfold normalize_text, strip, rstrip.
  pose proof (split_words (replace LF SP text)) as Hw.
  rewrite lstrip_join by assumption.
  rewrite rev_join, lstrip_join.
  - now rewrite <- rev_join, rev_involutive.
  - apply List.Forall_rev. apply List.Forall_forall. intros w Hin.
    apply in_map_iff in Hin as [w0 [<- Hin0]].
    rewrite List.Forall_forall in Hw. destruct (Hw _ Hin0) as [Hne Hns].
    split.
    + intros H. apply Hne. rewrite <- (rev_involutive w0), H. reflexivity.
    + now apply List.Forall_rev.
Qed.

(** ** Python values and exceptions *)

(** The objects the pipeline handles: what [json.load] and [orjson.loads]
    produce, and what the stages build from them.  A [dict] keeps its
    entries in insertion order. *)
Inductive value : Type :=
| VNone
| VBool (b : bool)
| VInt (z : Z)
| VFloat (f : spec_float)
| VStr (s : str)
| VList (items : list value)
| VDict (entries : list (value * value)).

Definition dict : Type := list (value * value).

(** The exceptions the stages can raise or meet. *)
Inductive exn : Type :=
| KeyError (key : value)
| IndexError
| TypeError
| AttributeError
| JSONDecodeError (msg : str)
| ProviderError (msg : str).

(** The outcome of an expression: an exception or a value. *)
Definition result (A : Type) : Type := (exn + A)%type.

Definition ok {A : Type} (a : A) : result A := inr a.
Definition raise {A : Type} (e : exn) : result A := inl e.

Definition rbind {A B : Type} (r : result A) (k : A -> result B) : result B :=
  match r with
  | inl e => inl e
  | inr a => k a
  end.

Declare Scope py_scope.
Delimit Scope py_scope with py.
Notation "x <- r ;; k" := (rbind r (fun x => k))
  (at level 100, r at next level, right associativity) : py_scope.
Local Open Scope py_scope.

(** *** Keys: hashing and equality *)

(** [list] and [dict] objects are unhashable. *)
Definition hashable (v : value) : bool :=
  match v with
  | VList _ | VDict _ => false
  | _ => true
  end.

Definition int_of_bool (b : bool) : Z := if b then 1 else 0.

(** [float == int]: Python compares the exact values. *)
Definition float_eqb_int (f : spec_float) (z : Z) : bool :=
  match f with
  | S754_zero _ => z =? 0
  | S754_finite s m e =>
      let v := if s then Z.neg m else Z.pos m in
      if 0 <=? e then z =? v * 2 ^ e else z * 2 ^ (- e) =? v
  | _ => false
  end.

(** [a == b] on hashable objects, as a [dict] uses it to find a key;
    [bool] is a subtype of [int]. *)
Definition key_eqb (a b : value) : bool :=
  match a, b with
  | VNone, VNone => true
  | VStr s, VStr t => str_eqb s t
  | VBool x, VBool y => Bool.eqb x y
  | VBool x, VInt z | VInt z, VBool x => int_of_bool x =? z
  | VInt x, VInt y => x =? y
  | VFloat f, VFloat g => SFeqb f g
  | VFloat f, VInt z | VInt z, VFloat f => float_eqb_int f z
  | VFloat f, VBool x | VBool x, VFloat f => float_eqb_int f (int_of_bool x)
  | _, _ => false
  end.

(** *** Dictionaries *)

Fixpoint dict_lookup (d : dict) (k : value) : option value :=
  match d with
  | [] => None
  | (k', v) :: rest => if key_eqb k' k then Some v else dict_lookup rest k
  end.

(** [d.get(k)] for a hashable [k]: [None] when the key is missing. *)
Definition dict_get (d : dict) (k : value) : value :=
  match dict_lookup d k with
  | Some v => v
  | None => VNone
  end.

(** Storing under a key that is present keeps the entry's place and its
    key object; a new key is appended. *)
Fixpoint dict_store (d : dict) (k v : value) : dict :=
  match d with
  | [] => [(k, v)]
  | (k', v') :: rest =>
      if key_eqb k' k then (k', v) :: rest else (k', v') :: dict_store rest k v
  end.

(** [d[k] = v]. *)
Definition dict_setitem (d : dict) (k v : value) : result dict :=
  if hashable k then ok (dict_store d k v) else raise TypeError.

(** *** Subscription and iteration *)

(** [seq[i]] for a sequence of length [n]: negative indices count from the
    end. *)
Definition seq_index {A : Type} (l : list A) (i : Z) : result A :=
  let n := Z.of_nat (length l) in
  let j := if i <? 0 then i + n else i in
  if (j <? 0) || (n <=? j) then raise IndexError
  else match nth_error l (Z.to_nat j) with
       | Some a => ok a
       | None => raise IndexError
       end.

(** [obj[key]]. *)
Definition subscript (obj key : value) : result value :=
  match obj with
  | VDict d =>
      if hashable key then
        match dict_lookup d key with
        | Some v => ok v
        | None => raise (KeyError key)
        end
      else raise TypeError
  | VList l =>
      match key with
      | VInt i => seq_index l i
      | VBool b => seq_index l (int_of_bool b)
      | _ => raise TypeError
      end
  | VStr s =>
      match key with
      | VInt i => c <- seq_index s i ;; ok (VStr [c])
      | VBool b => c <- seq_index s (int_of_bool b) ;; ok (VStr [c])
      | _ => raise TypeError
      end
  | _ => raise TypeError
  end.

(** The objects [for x in obj] goes through. *)
Definition iterate (obj : value) : result (list value) :=
  match obj with
  | VList l => ok l
  | VDict d => ok (List.map fst d)
  | VStr s => ok (List.map (fun c => VStr [c]) s)
  | _ => raise TypeError
  end.

(** ** Effects *)

(** What a stage does besides returning: the records it hands to the
    module's [logger], and the calls it makes to the generator. *)
Inductive event : Type :=
| LogInfo (msg : str)
| LogError (msg : str)
| GeneratorRun (prompt : value).

(** A computation yields the events it emitted, in order, and its
    outcome; an exception ends it. *)
Definition M (A : Type) : Type := (list event * result A)%type.

Definition mret {A : Type} (a : A) : M A := ([], ok a).
Definition mraise {A : Type} (e : exn) : M A := ([], raise e).
Definition emit (ev : event) : M unit := ([ev], ok tt).
Definition lift {A : Type} (r : result A) : M A := ([], r).

Definition mbind {A B : Type} (m : M A) (k : A -> M B) : M B :=
  match m with
  | (evs, inl e) => (evs, inl e)
  | (evs, inr a) => let (evs', r) := k a in (evs ++ evs', r)
  end.

Declare Scope eff_scope.
Delimit Scope eff_scope with eff.
Notation "x <~ m ;; k" := (mbind m (fun x => k))
  (at level 100, m at next level, right associativity) : eff_scope.
Notation "m ;;; k" := (mbind m (fun _ => k))
  (at level 100, right associativity) : eff_scope.
Local Open Scope eff_scope.

Definition events {A : Type} (m : M A) : list event := fst m.
Definition outcome {A : Type} (m : M A) : result A := snd m.

Lemma mbind_ok {A B : Type} (a : A) (k : A -> M B) :
  mbind (lift (ok a)) k = k a.
Proof. unfold mbind, lift, ok. destruct (k a). reflexivity. Qed.

Lemma mbind_raise {A B : Type} (evs : list event) (e : exn) (k : A -> M B) :
  mbind (evs, raise e) k = (evs, raise e).
Proof. reflexivity. Qed.

Lemma mbind_events {A B : Type} (evs : list event) (a : A) (k : A -> M B) :
  mbind (evs, ok a) k = (evs ++ events (k a), outcome (k a)).
Proof. unfold mbind, ok, events, outcome. destruct (k a). reflexivity. Qed.

(** ** The pipeline stages *)

(** The string constants of the source. *)
Definition k_name : value := VStr (lit "name").
Definition k_columns : value := VStr (lit "columns").
Definition k_properties : value := VStr (lit "properties").
Definition k_models : value := VStr (lit "models").
Definition k_replies : value := VStr (lit "replies").
Definition k_prompt : value := VStr (lit "prompt").
Definition k_post_process : value := VStr (lit "post_process").

(** *** [picked_models] (lines 20-30) *)

(** The inner [extract]: a new record with three entries. *)
Definition extract (model : value) : result value :=
  name <- subscript model k_name ;;
  columns <- subscript model k_columns ;;
  properties <- subscript model k_properties ;;
  ok (VDict [(k_name, name); (k_columns, columns); (k_properties, properties)]).

(** [x in selected_models], for a list of [str]: only an equal [str] is
    found. *)
Definition str_in (x : value) (selected_models : list str) : bool :=
  match x with
  | VStr s => existsb (str_eqb s) selected_models
  | _ => false
  end.

(** The list comprehension: the condition is evaluated for every model,
    [extract] for the models that pass it. *)
Fixpoint picked_models_loop (models : list value) (selected_models : list str)
  : result (list value) :=
  match models with
  | [] => ok []
  | model :: rest =>
      name <- subscript model k_name ;;
      if str_in name selected_models then
        picked <- extract model ;;
        others <- picked_models_loop rest selected_models ;;
        ok (picked :: others)
      else picked_models_loop rest selected_models
  end.

Definition picked_models (mdl : dict) (selected_models : list str)
  : result (list value) :=
  models <- subscript (VDict mdl) k_models ;;
  items <- iterate models ;;
  picked_models_loop items selected_models.

(** *** [prompt] and [generate] (lines 33-42) *)

(** The two configured components of a pipeline instance
    ([self._components]): the prompt builder's [run] and the generator's
    [run], each answering with a mapping or raising. *)
Record components : Type := {
  prompt_builder : list value -> str -> result dict;
  generator : value -> result dict
}.

Definition prompt (picked_models : list value) (user_prompt : str)
    (prompt_builder : list value -> str -> result dict) : result dict :=
  prompt_builder picked_models user_prompt.

(** [await generator.run(prompt=prompt.get("prompt"))]: one call, whose
    outcome is the stage's outcome. *)
Definition generate (prompt : dict) (generator : value -> result dict)
  : M dict :=
  let p := dict_get prompt k_prompt in
  emit (GeneratorRun p) ;;;
  lift (generator p).

(** *** [post_process] (lines 45-60) *)

Section PostProcess.

(** [orjson.loads]: the decoded document, or [JSONDecodeError]. *)
Variable loads : str -> result value.

Definition error_decoding (e : str) : str :=
  lit "Error decoding JSON: " ++ e.

(** The inner [normalize]; a [reply] that is not a [str] has no
    [replace]. *)
Definition normalize (text : value) : M value :=
  match text with
  | VStr text =>
      let text := normalize_text text in
      match loads (strip text) with
      | inr text_dict => mret text_dict
      | inl (JSONDecodeError e) =>
          emit (LogError (error_decoding e)) ;;;
          mret (VDict [])
      | inl e => mraise e
      end
  | _ => mraise AttributeError
  end.

(** The dict comprehension [{model["name"]: model for model in ...}]. *)
Fixpoint index_by_name (models : list value) (acc : dict) : result dict :=
  match models with
  | [] => ok acc
  | model :: rest =>
      name <- subscript model k_name ;;
      acc' <- dict_setitem acc name model ;;
      index_by_name rest acc'
  end.

Definition post_process (generate : dict) : M dict :=
  reply <~ lift (subscript (dict_get generate k_replies) (VInt 0)) ;;
  normalized <~ normalize reply ;;
  lift (models <- subscript normalized k_models ;;
        items <- iterate models ;;
        index_by_name items []).

(** *** [SemanticsDescription.run] (lines 172-188) *)

Definition running : str :=
  lit "Semantics Description Generation pipeline is running...".

(** The driver evaluates what [post_process] depends on, in dependency
    order, and answers with the requested outputs by name. *)
Definition run (self : components) (user_prompt : str)
    (selected_models : list str) (mdl : dict) : M dict :=
  emit (LogInfo running) ;;;
  picked <~ lift (picked_models mdl selected_models) ;;
  p <~ lift (prompt picked user_prompt (prompt_builder self)) ;;
  g <~ generate p (generator self) ;;
  r <~ post_process g ;;
  mret [(k_post_process, VDict r)].

End PostProcess.

(** ** A JSON decoder

    [post_process] is stated over any decoder.  To run the stages on
    concrete replies, [json_loads] decodes the JSON grammar of RFC 8259 the
    way [orjson.loads] answers a [str]: a document becomes [dict], [list],
    [str], [int], [float], [bool] and [None] objects, a repeated key keeps
    its last value, and anything else is a [JSONDecodeError].  The text of
    the error's message is not modelled: every error carries the same
    message. *)

Module Json.

Inductive token : Type :=
| TLBrace | TRBrace | TLBracket | TRBracket | TColon | TComma
| TString (s : str)
| TAtom (lexeme : str).

(** *** Numbers *)

(** The nearest integer to [p / q], ties to even ([0 <= p], [0 < q]). *)
Definition round_ratio (p q : Z) : Z :=
  let d := p / q in
  match 2 * (p mod q) ?= q with
  | Lt => d
  | Gt => d + 1
  | Eq => if Z.even d then d else d + 1
  end.

(** The double nearest to [p / q]; no double when it is out of range. *)
Definition binary64_of_ratio (neg : bool) (p q : Z) : option spec_float :=
  if p =? 0 then Some (S754_zero neg)
  else
    let l := Z.log2 p - Z.log2 q in
    let reaches (k : Z) :=
      if 0 <=? k then q * 2 ^ k <=? p else q <=? p * 2 ^ (- k) in
    let fl := if reaches l then l else l - 1 in
    let e := Z.max (fl - 52) (-1074) in
    let m := if 0 <=? e then round_ratio p (q * 2 ^ e)
             else round_ratio (p * 2 ^ (- e)) q in
    let '(m, e) := if m =? 2 ^ 53 then (2 ^ 52, e + 1) else (m, e) in
    if m =? 0 then Some (S754_zero neg)
    else if 971 <? e then None
    else Some (S754_finite neg (Z.to_pos m) e).

Definition digit (c : char) : option Z :=
  if ((48 <=? c) && (c <=? 57))%N then Some (Z.of_N c - 48) else None.

(** The longest run of digits at the head of [s], and what follows. *)
Fixpoint span_digits (s : str) : list Z * str :=
  match s with
  | [] => ([], [])
  | c :: rest =>
      match digit c with
      | Some d => let (ds, tl) := span_digits rest in (d :: ds, tl)
      | None => ([], s)
      end
  end.

Definition decimal (ds : list Z) : Z :=
  fold_left (fun acc d => 10 * acc + d) ds 0.

Definition leading_zero (ds : list Z) : bool :=
  match ds with
  | 0 :: _ :: _ => true
  | _ => false
  end.

Definition is_nil {A : Type} (l : list A) : bool :=
  match l with
  | [] => true
  | _ => false
  end.

(** [-? int frac? exp?]: an integer within 64 bits is an [int], every
    other number a [float]. *)
Definition number (lexeme : str) : option value :=
  let '(neg, s) := match lexeme with
                   | 45%N :: r => (true, r)
                   | _ => (false, lexeme)
                   end in
  let '(ip, s) := span_digits s in
  if is_nil ip || leading_zero ip then None
  else
    let frac := match s with
                | 46%N :: r =>
                    let (fp, s') := span_digits r in
                    if is_nil fp then None else Some (fp, s', true)
                | _ => Some ([], s, false)
                end in
    match frac with
    | None => None
    | Some (fp, s, has_frac) =>
        let expo :=
          match s with
          | c :: r =>
              if ((c =? 101) || (c =? 69))%N then
                let '(eneg, r) := match r with
                                  | 45%N :: r' => (true, r')
                                  | 43%N :: r' => (false, r')
                                  | _ => (false, r)
                                  end in
                let (ep, s') := span_digits r in
                if is_nil ep then None
                else Some (if eneg then - decimal ep else decimal ep,
                           s', true)
              else Some (0, s, false)
          | [] => Some (0, s, false)
          end in
        match expo with
        | None => None
        | Some (ex, s, has_exp) =>
            if negb (is_nil s) then None
            else
              let d := decimal (ip ++ fp) in
              let z := if neg then - d else d in
              if negb has_frac && negb has_exp
                 && (- 2 ^ 63 <=? z) && (z <? 2 ^ 64)
              then Some (VInt z)
              else
                let x := ex - Z.of_nat (length fp) in
                let f := if 0 <=? x
                         then binary64_of_ratio neg (d * 10 ^ x) 1
                         else binary64_of_ratio neg d (10 ^ (- x)) in
                option_map VFloat f
        end
    end.

(** A lexeme that is not a string: a literal name or a number. *)
Definition atom (lexeme : str) : option value :=
  if str_eqb lexeme (lit "true") then Some (VBool true)
  else if str_eqb lexeme (lit "false") then Some (VBool false)
  else if str_eqb lexeme (lit "null") then Some VNone
  else number lexeme.

(** *** Lexemes *)

Inductive lexstate : Type :=
| LTop
| LAtom (acc : str)
| LStr (acc : str)
| LEsc (acc : str)
| LHex (acc : str) (high : option N) (digits : list N)
| LLow (acc : str) (high : N)
| LLowU (acc : str) (high : N).

Definition json_space (c : char) : bool :=
  ((c =? 32) || (c =? 9) || (c =? 10) || (c =? 13))%N.

Definition structural (c : char) : option token :=
  if (c =? 123)%N then Some TLBrace
  else if (c =? 125)%N then Some TRBrace
  else if (c =? 91)%N then Some TLBracket
  else if (c =? 93)%N then Some TRBracket
  else if (c =? 58)%N then Some TColon
  else if (c =? 44)%N then Some TComma
  else None.

Definition hex_digit (c : char) : option N :=
  if ((48 <=? c) && (c <=? 57))%N then Some (c - 48)%N
  else if ((97 <=? c) && (c <=? 102))%N then Some (c - 87)%N
  else if ((65 <=? c) && (c <=? 70))%N then Some (c - 55)%N
  else None.

(** The character a one-letter escape stands for. *)
Definition escaped (c : char) : option char :=
  if (c =? 34)%N then Some 34%N
  else if (c =? 92)%N then Some 92%N
  else if (c =? 47)%N then Some 47%N
  else if (c =? 98)%N then Some 8%N
  else if (c =? 102)%N then Some 12%N
  else if (c =? 110)%N then Some 10%N
  else if (c =? 114)%N then Some 13%N
  else if (c =? 116)%N then Some 9%N
  else None.

Definition high_surrogate (c : N) : bool := ((55296 <=? c) && (c <=? 56319))%N.
Definition low_surrogate (c : N) : bool := ((56320 <=? c) && (c <=? 57343))%N.

(** A [\uXXXX] escape is complete: a character, the first half of a
    pair, or the second half that joins the pending first. *)
Definition unicode_escape (acc : str) (high : option N) (code : N)
  : option lexstate :=
  match high with
  | None =>
      if high_surrogate code then Some (LLow acc code)
      else if low_surrogate code then None
      else Some (LStr (acc ++ [code]))
  | Some h =>
      if low_surrogate code
      then Some (LStr (acc ++ [65536 + (h - 55296) * 1024 + (code - 56320)]%N))
      else None
  end.

(** One character: the tokens it completes and the next state. *)
Definition lex_step (st : lexstate) (c : char)
  : option (list token * lexstate) :=
  match st with
  | LTop =>
      if json_space c then Some ([], LTop)
      else match structural c with
           | Some t => Some ([t], LTop)
           | None => if (c =? 34)%N then Some ([], LStr [])
                     else Some ([], LAtom [c])
           end
  | LAtom acc =>
      if json_space c then Some ([TAtom acc], LTop)
      else match structural c with
           | Some t => Some ([TAtom acc; t], LTop)
           | None => if (c =? 34)%N then Some ([TAtom acc], LStr [])
                     else Some ([], LAtom (acc ++ [c]))
           end
  | LStr acc =>
      if (c =? 34)%N then Some ([TString acc], LTop)
      else if (c =? 92)%N then Some ([], LEsc acc)
      else if (c <? 32)%N then None
      else Some ([], LStr (acc ++ [c]))
  | LEsc acc =>
      if (c =? 117)%N then Some ([], LHex acc None [])
      else match escaped c with
           | Some c' => Some ([], LStr (acc ++ [c']))
           | None => None
           end
  | LHex acc high ds =>
      match hex_digit c with
      | Some d =>
          let ds := ds ++ [d] in
          if (length ds =? 4)%nat then
            let code := fold_left (fun a x => (16 * a + x)%N) ds 0%N in
            match unicode_escape acc high code with
            | Some st' => Some ([], st')
            | None => None
            end
          else Some ([], LHex acc high ds)
      | None => None
      end
  | LLow acc high =>
      if (c =? 92)%N then Some ([], LLowU acc high) else None
  | LLowU acc high =>
      if (c =? 117)%N then Some ([], LHex acc (Some high) []) else None
  end.

Fixpoint lex (st : lexstate) (text : str) : option (list token) :=
  match text with
  | [] =>
      match st with
      | LTop => Some []
      | LAtom acc => Some [TAtom acc]
      | _ => None
      end
  | c :: rest =>
      match lex_step st c with
      | Some (ts, st') => option_map (app ts) (lex st' rest)
      | None => None
      end
  end.

(** *** Documents *)

(** The containers that are open around the current position. *)
Inductive frame : Type :=
| InList (done_rev : list value)
| InDict (done : dict) (key : value).

Inductive pstate : Type :=
| PValue (stack : list frame)
| PFirstElem (stack : list frame)
| PFirstKey (stack : list frame)
| PKey (done : dict) (stack : list frame)
| PColon (done : dict) (key : value) (stack : list frame)
| PListNext (done_rev : list value) (stack : list frame)
| PDictNext (done : dict) (stack : list frame)
| PDone (v : value).

(** A value is complete: it goes into the innermost open container. *)
Definition complete (v : value) (stack : list frame) : pstate :=
  match stack with
  | [] => PDone v
  | InList acc :: st => PListNext (v :: acc) st
  | InDict d k :: st => PDictNext (dict_store d k v) st
  end.

(** The decoder refuses a document whose lists and mappings are nested
    more than 1024 deep. *)
Definition max_depth : nat := 1024.

Definition start_value (t : token) (stack : list frame) : option pstate :=
  match t with
  | TString s => Some (complete (VStr s) stack)
  | TAtom a => option_map (fun v => complete v stack) (atom a)
  | TLBracket =>
      if (length stack <? max_depth)%nat then Some (PFirstElem stack)
      else None
  | TLBrace =>
      if (length stack <? max_depth)%nat then Some (PFirstKey stack)
      else None
  | _ => None
  end.

Definition parse_step (st : pstate) (t : token) : option pstate :=
  match st, t with
  | PValue stack, _ => start_value t stack
  | PFirstElem stack, TRBracket => Some (complete (VList []) stack)
  | PFirstElem stack, _ => start_value t (InList [] :: stack)
  | PFirstKey stack, TRBrace => Some (complete (VDict []) stack)
  | PFirstKey stack, TString k => Some (PColon [] (VStr k) stack)
  | PKey d stack, TString k => Some (PColon d (VStr k) stack)
  | PColon d k stack, TColon => Some (PValue (InDict d k :: stack))
  | PListNext acc stack, TComma => Some (PValue (InList acc :: stack))
  | PListNext acc stack, TRBracket => Some (complete (VList (rev acc)) stack)
  | PDictNext d stack, TComma => Some (PKey d stack)
  | PDictNext d stack, TRBrace => Some (complete (VDict d) stack)
  | _, _ => None
  end.

Fixpoint parse (st : pstate) (ts : list token) : option value :=
  match ts with
  | [] =>
      match st with
      | PDone v => Some v
      | _ => None
      end
  | t :: rest =>
      match parse_step st t with
      | Some st' => parse st' rest
      | None => None
      end
  end.

(** A [str] with a surrogate code point has no UTF-8 form to decode. *)
Definition scalar (c : char) : bool :=
  ((c <? 55296) || ((57343 <? c) && (c <? 1114112)))%N.

Definition invalid : str := lit "invalid JSON".

Definition loads (text : str) : result value :=
  if forallb scalar text then
    match lex LTop text with
    | Some ts =>
        match parse (PValue []) ts with
        | Some v => ok v
        | None => raise (JSONDecodeError invalid)
        end
    | None => raise (JSONDecodeError invalid)
    end
  else raise (JSONDecodeError invalid).

End Json.

Definition json_loads : str -> result value := Json.loads.

(** ** What [post_process] answers *)

(** The first candidate of a reply envelope: [generate.get("replies")[0]]. *)
Definition first_reply (generate : dict) : result value :=
  subscript (dict_get generate k_replies) (VInt 0).

(** Whether a decoded document is a mapping with a ["models"] entry. *)
Definition has_models (document : value) : bool :=
  match document with
  | VDict d => match dict_lookup d k_models with
               | Some _ => true
               | None => false
               end
  | _ => false
  end.

(** The name an element is filed under. *)
Definition name_of (model : value) : value :=
  match model with
  | VDict e => dict_get e k_name
  | _ => VNone
  end.

(** An element that can be filed: a mapping whose ["name"] is hashable. *)
Definition named (model : value) : Prop :=
  exists e n, model = VDict e /\ dict_lookup e k_name = Some n
              /\ hashable n = true.

(** The mapping from each element's name to the element. *)
Definition by_name (models : list value) : dict :=
  fold_left (fun acc model => dict_store acc (name_of model) model) models [].

(** The last element filed under the name [s]. *)
Definition last_named (s : str) (models : list value) : option value :=
  fold_left (fun found model =>
               if key_eqb (name_of model) (VStr s) then Some model else found)
            models None.

Definition keys (d : dict) : list value := List.map fst d.

Section PostProcessFacts.

Variable loads : str -> result value.

Lemma post_process_reply (generate : dict) (reply : value) :
  first_reply generate = ok reply ->
  post_process loads generate =
    (normalized <~ normalize loads reply ;;
     lift (models <- subscript normalized k_models ;;
           items <- iterate models ;;
           index_by_name items [])).
Proof.
  unfold first_reply, post_process. intros ->. now rewrite mbind_ok.
Qed.

Lemma post_process_document (generate : dict) (text : str) (v : value) :
  first_reply generate = ok (VStr text) ->
  loads (strip (normalize_text text)) = ok v ->
  post_process loads generate =
    ([], models <- subscript v k_models ;;
         items <- iterate models ;;
         index_by_name items []).
Proof.
  intros Hr Hv. rewrite (post_process_reply _ _ Hr).
  unfold normalize. rewrite Hv. reflexivity.
Qed.

(** A reply that does not decode: the handler logs, answers the empty
    mapping, and the subscription of that mapping raises. *)
Lemma post_process_decode_error (generate : dict) (text e : str) :
  first_reply generate = ok (VStr text) ->
  loads (strip (normalize_text text)) = raise (JSONDecodeError e) ->
  post_process loads generate =
    ([LogError (error_decoding e)], raise (KeyError k_models)).
Proof.
  intros Hr Hv. rewrite (post_process_reply _ _ Hr).
  unfold normalize. rewrite Hv. reflexivity.
Qed.

Lemma first_reply_cons (generate : dict) (r : value) (rest : list value) :
  dict_lookup generate k_replies = Some (VList (r :: rest)) ->
  first_reply generate = ok r.
Proof. unfold first_reply, dict_get. intros ->. reflexivity. Qed.

(** *** Filing elements by name *)

Lemma subscript_named (model : value) :
  named model -> subscript model k_name = ok (name_of model)
                 /\ hashable (name_of model) = true.
Proof.
  intros (e & n & -> & Hn & Hh). simpl. unfold dict_get. rewrite Hn.
  split; [reflexivity | exact Hh].
Qed.

Lemma index_by_name_named (models : list value) (acc : dict) :
  Forall named models ->
  index_by_name models acc =
    ok (fold_left (fun acc model => dict_store acc (name_of model) model)
                  models acc).
Proof.
  revert acc. induction models as [|m ms IH]; intros acc Hall;
    [reflexivity|].
  inversion Hall as [|? ? Hm Hms]; subst.
  destruct (subscript_named m Hm) as [Hs Hh].
  simpl. rewrite Hs. simpl. unfold dict_setitem. rewrite Hh. simpl.
  now apply IH.
Qed.

Lemma keys_dict_store (d : dict) (k v k0 : value) :
  In k0 (keys (dict_store d k v)) -> In k0 (keys d) \/ k0 = k.
Proof.
  induction d as [|[k' v'] d IH]; simpl.
  - intros [<-|[]]. now right.
  - destruct (key_eqb k' k); simpl.
    + intros [<-|H]; left; auto.
    + intros [<-|H]; [left; now left|].
      destruct (IH H) as [H'|H']; [left; now right | now right].
Qed.

Lemma keys_dict_store_old (d : dict) (k v k0 : value) :
  In k0 (keys d) -> In k0 (keys (dict_store d k v)).
Proof.
  induction d as [|[k' v'] d IH]; simpl; [intros []|].
  destruct (key_eqb k' k); simpl; intros [<-|H]; auto.
Qed.

Lemma keys_dict_store_new (d : dict) (k v : value) :
  exists k0, In k0 (keys (dict_store d k v))
             /\ (k0 = k \/ key_eqb k0 k = true).
Proof.
  induction d as [|[k' v'] d IH]; simpl.
  - exists k. split; [now left | now left].
  - destruct (key_eqb k' k) eqn:E; simpl.
    + exists k'. split; [now left | now right].
    + destruct IH as (k0 & Hin & Hk). exists k0. split; [now right | exact Hk].
Qed.

Lemma key_eqb_str (k : value) (s : str) :
  key_eqb k (VStr s) = true <-> k = VStr s.
Proof.
  destruct k; simpl; try (split; [discriminate | discriminate]).
  rewrite str_eqb_eq. split; [now intros -> | now intros [= ->]].
Qed.

Lemma key_eqb_str_l (k : value) (s : str) :
  key_eqb (VStr s) k = key_eqb k (VStr s).
Proof.
  destruct k; simpl; try reflexivity.
  destruct (str_eqb s s0) eqn:E.
  - apply str_eqb_eq in E as ->. symmetry. apply str_eqb_refl.
  - destruct (str_eqb s0 s) eqn:E'; [|reflexivity].
    apply str_eqb_eq in E' as ->. now rewrite str_eqb_refl in E.
Qed.

Lemma dict_lookup_store_str (d : dict) (k v : value) (s : str) :
  dict_lookup (dict_store d k v) (VStr s) =
    if key_eqb k (VStr s) then Some v else dict_lookup d (VStr s).
Proof.
  induction d as [|[k' v'] d IH]; simpl; [reflexivity|].
  destruct (key_eqb k' k) eqn:E; simpl.
  - destruct (key_eqb k' (VStr s)) eqn:E1.
    + apply key_eqb_str in E1 as ->. rewrite key_eqb_str_l in E. now rewrite E.
    + destruct (key_eqb k (VStr s)) eqn:E2; [|reflexivity].
      apply key_eqb_str in E2 as ->. congruence.
  - rewrite IH. destruct (key_eqb k' (VStr s)) eqn:E1; [|reflexivity].
    destruct (key_eqb k (VStr s)) eqn:E2; [|reflexivity].
    apply key_eqb_str in E1 as ->. apply key_eqb_str in E2 as ->.
    simpl in E. now rewrite str_eqb_refl in E.
Qed.

Lemma keys_fold_store (models : list value) (acc : dict) (k : value) :
  In k (keys (fold_left (fun acc model =>
                           dict_store acc (name_of model) model) models acc)) ->
  In k (keys acc) \/ In k (List.map name_of models).
Proof.
  revert acc. induction models as [|m ms IH]; intros acc; simpl; [auto|].
  intros H. destruct (IH _ H) as [H'|H']; [|now right; right].
  destruct (keys_dict_store _ _ _ _ H') as [H''|H'']; [now left|].
  right. left. now symmetry.
Qed.

Lemma keys_fold_store_old (models : list value) (acc : dict) (k : value) :
  In k (keys acc) ->
  In k (keys (fold_left (fun acc model =>
                           dict_store acc (name_of model) model) models acc)).
Proof.
  revert acc. induction models as [|m ms IH]; intros acc H; simpl; [exact H|].
  apply IH. now apply keys_dict_store_old.
Qed.

Lemma names_fold_store (models : list value) (acc : dict) (m : value) :
  In m models ->
  exists k, In k (keys (fold_left (fun acc model =>
                           dict_store acc (name_of model) model) models acc))
            /\ (k = name_of m \/ key_eqb k (name_of m) = true).
Proof.
  revert acc. induction models as [|m' ms IH]; intros acc; simpl; [intros []|].
  intros [->|H]; [|now apply IH].
  destruct (keys_dict_store_new acc (name_of m) m) as (k & Hin & Hk).
  exists k. split; [now apply keys_fold_store_old | exact Hk].
Qed.

Lemma lookup_fold_store (models : list value) (acc : dict) (s : str) :
  dict_lookup (fold_left (fun acc model =>
                            dict_store acc (name_of model) model) models acc)
              (VStr s) =
    fold_left (fun found model =>
                 if key_eqb (name_of model) (VStr s) then Some model
                 else found)
              models (dict_lookup acc (VStr s)).
Proof.
  revert acc. induction models as [|m ms IH]; intros acc; simpl;
    [reflexivity|].
  now rewrite IH, dict_lookup_store_str.
Qed.

End PostProcessFacts.

(** *** Concrete envelopes *)

(** A literal in which an apostrophe stands for the double quote. *)
Definition quoted (s : string) : str :=
  List.map (fun c => if (c =? 39)%N then 34%N else c) (lit s).

Definition envelope (replies : list value) : dict :=
  [(k_replies, VList replies)].

Definition not_json : str := lit "not json".

Definition orders_reply : str :=
  quoted "{'models':[{'name':'orders','properties':{'description':'d1'}}]}".

Definition orders_model : value :=
  VDict [(k_name, VStr (lit "orders"));
         (k_properties, VDict [(VStr (lit "description"), VStr (lit "d1"))])].

Definition orders_mapping : dict := [(VStr (lit "orders"), orders_model)].

(** A reply whose name holds two consecutive spaces. *)
Definition spaced_reply : str := quoted "{'models':[{'name':'a  b'}]}".

(** A reply whose only element has no name. *)
Definition nameless_reply : str := quoted "{'models':[{}]}".

(** The output format the module's [system_prompt] asks the generator
    for (lines 92-119): a top-level array of models. *)
Definition system_prompt_format : str :=
  quoted "[
    {
        'name': 'model',
        'columns': [
            {
                'name': 'column_1',
                'properties': {
                    'description': '<description for column_1>'
                }
            },
            {
                'name': 'column_2',
                'properties': {
                    'description': '<description for column_1>'
                }
            },
            {
                'name': 'column_3',
                'properties': {
                    'description': '<description for column_1>'
                }
            }
        ],
        'properties': {
            'description': '<description for model>'
        }
    }
]".

(** C1. The specification has [post_process] answer the empty mapping,
    with nothing raised, when the first candidate is no JSON document.  On
    the envelope [{"replies": ["not json"]}] the decoder fails, the handler
    logs the error and [normalize] answers [{}] as its comment says; the
    subscription [normalized["models"]] of line 60 then raises
    [KeyError].  *)
Theorem post_process_not_json_raises :
  json_loads (strip (normalize_text not_json))
    = raise (JSONDecodeError Json.invalid)
  /\ post_process json_loads (envelope [VStr not_json])
     = ([LogError (error_decoding Json.invalid)], raise (KeyError k_models)).
Proof.
  assert (Hd : json_loads (strip (normalize_text not_json))
               = raise (JSONDecodeError Json.invalid))
    by (vm_compute; reflexivity).
  split; [exact Hd|].
  now apply (post_process_decode_error json_loads _ not_json).
Qed.

(** C9. For every reply envelope with no ["replies"] entry, or with an
    empty ["replies"] list, [post_process] raises (the subscription
    [generate.get("replies")[0]] is unguarded): [TypeError] on the [None]
    that [get] answers, [IndexError] on the empty list.  Nothing is logged
    and no mapping is answered. *)
Theorem post_process_without_replies_raises
    (loads : str -> result value) (generate : dict) :
  dict_lookup generate k_replies = None
  \/ dict_lookup generate k_replies = Some (VList []) ->
  exists e, post_process loads generate = ([], raise e)
            /\ (e = TypeError \/ e = IndexError).
Proof.
  unfold post_process, dict_get. intros [-> | ->].
  - exists TypeError. split; [reflexivity | now left].
  - exists IndexError. split; [reflexivity | now right].
Qed.

Lemma post_process_without_replies_raises_witness :
  (dict_lookup [] k_replies = None
   \/ dict_lookup [] k_replies = Some (VList []))
  /\ exists e, post_process json_loads [] = ([], raise e)
               /\ (e = TypeError \/ e = IndexError).
Proof.
  split; [left; reflexivity|].
  apply (post_process_without_replies_raises json_loads []).
  left. reflexivity.
Defined.

(** C10. For every reply envelope whose first candidate decodes to a JSON
    value that is not a mapping with a ["models"] key, [post_process]
    raises instead of answering the empty mapping: [KeyError] for a
    mapping without the key, [TypeError] for every other value, among them
    the top-level array that the module's own [system_prompt] asks for. *)
Theorem post_process_without_models_raises
    (loads : str -> result value) (generate : dict) (text : str)
    (document : value) :
  first_reply generate = ok (VStr text) ->
  loads (strip (normalize_text text)) = ok document ->
  has_models document = false ->
  exists e, post_process loads generate = ([], raise e)
            /\ (e = KeyError k_models \/ e = TypeError).
Proof.
  intros Hr Hd Hm. rewrite (post_process_document loads _ _ _ Hr Hd).
  destruct document as [| b | z | f | s | l | d]; simpl in *;
    try (exists TypeError; split; [reflexivity | now right]).
  destruct (dict_lookup d k_models); [discriminate|].
  exists (KeyError k_models). split; [reflexivity | now left].
Qed.

(** What the array of the [system_prompt] decodes to. *)
Definition system_prompt_document : value :=
  Eval vm_compute in
    match json_loads (strip (normalize_text system_prompt_format)) with
    | inr document => document
    | inl _ => VNone
    end.

Lemma post_process_without_models_raises_witness :
  first_reply (envelope [VStr system_prompt_format])
    = ok (VStr system_prompt_format)
  /\ json_loads (strip (normalize_text system_prompt_format))
     = ok system_prompt_document
  /\ has_models system_prompt_document = false
  /\ exists e,
       post_process json_loads (envelope [VStr system_prompt_format])
         = ([], raise e)
       /\ (e = KeyError k_models \/ e = TypeError).
Proof.
  assert (Hr : first_reply (envelope [VStr system_prompt_format])
               = ok (VStr system_prompt_format)) by reflexivity.
  assert (Hd : json_loads (strip (normalize_text system_prompt_format))
               = ok system_prompt_document) by (vm_compute; reflexivity).
  assert (Hm : has_models system_prompt_document = false) by reflexivity.
  split; [exact Hr|]. split; [exact Hd|]. split; [exact Hm|].
  exact (post_process_without_models_raises json_loads _ _ _ Hr Hd Hm).
Defined.

(** The array of the [system_prompt] is a list of one model: subscribing it
    with ["models"] is a [TypeError]. *)
Example post_process_system_prompt_format :
  (exists model, system_prompt_document = VList [VDict model])
  /\ post_process json_loads (envelope [VStr system_prompt_format])
     = ([], raise TypeError).
Proof. split; [eexists|]; vm_compute; reflexivity. Qed.

(** C4. [post_process] uses the first candidate only: two envelopes whose
    ["replies"] lists start with the same candidate have the same outcome
    and the same log, whatever candidates follow in either list and
    whatever else the envelopes hold. *)
Theorem post_process_first_reply_only
    (loads : str -> result value) (g1 g2 : dict) (r : value)
    (rest1 rest2 : list value) :
  dict_lookup g1 k_replies = Some (VList (r :: rest1)) ->
  dict_lookup g2 k_replies = Some (VList (r :: rest2)) ->
  post_process loads g1 = post_process loads g2.
Proof.
  intros H1 H2.
  rewrite (post_process_reply loads g1 r (first_reply_cons _ _ _ H1)).
  rewrite (post_process_reply loads g2 r (first_reply_cons _ _ _ H2)).
  reflexivity.
Qed.

Lemma post_process_first_reply_only_witness :
  post_process json_loads
    ((VStr (lit "meta"), VList []) :: envelope [VStr orders_reply; VStr not_json; VNone])
  = post_process json_loads (envelope [VStr orders_reply]).
Proof.
  apply (post_process_first_reply_only json_loads _ _ (VStr orders_reply)
           [VStr not_json; VNone] []); reflexivity.
Defined.

(** C3, as the code has it.  When the first candidate is a string whose
    whitespace-normalized form decodes to a mapping with a list under
    ["models"], and every element of the list is a mapping with a hashable
    ["name"], [post_process] answers the mapping from each element's name
    to the element and logs nothing: its keys are names of elements, every
    element's name is (equal to) a key, and a string name is bound to the
    last element of that name.  For the first candidate
    [{"models":[{"name":"orders","properties":{"description":"d1"}}]}] the
    answer is [{"orders": {"name":"orders","properties":{"description":"d1"}}}]. *)
Theorem post_process_files_models_by_name :
  (forall (loads : str -> result value) (generate : dict) (text : str)
          (d : dict) (elems : list value),
      first_reply generate = ok (VStr text) ->
      loads (strip (normalize_text text)) = ok (VDict d) ->
      dict_lookup d k_models = Some (VList elems) ->
      Forall named elems ->
      post_process loads generate = ([], ok (by_name elems))
      /\ (forall k, In k (keys (by_name elems)) ->
                    In k (List.map name_of elems))
      /\ (forall m, In m elems ->
            exists k, In k (keys (by_name elems))
                      /\ (k = name_of m \/ key_eqb k (name_of m) = true))
      /\ (forall s, dict_lookup (by_name elems) (VStr s)
                    = last_named s elems))
  /\ post_process json_loads (envelope [VStr orders_reply])
     = ([], ok orders_mapping).
Proof.
  split; [|vm_compute; reflexivity].
  intros loads generate text d elems Hr Hd Hm Hall.
  split; [|split; [|split]].
  - rewrite (post_process_document loads _ _ _ Hr Hd).
    simpl. rewrite Hm. simpl.
    now rewrite (index_by_name_named elems [] Hall).
  - intros k Hk. destruct (keys_fold_store elems [] k Hk) as [[]|H].
    exact H.
  - intros m Hin. now apply names_fold_store.
  - intros s. unfold by_name, last_named. now rewrite lookup_fold_store.
Qed.

Lemma post_process_files_models_by_name_witness :
  first_reply (envelope [VStr orders_reply]) = ok (VStr orders_reply)
  /\ json_loads (strip (normalize_text orders_reply))
     = ok (VDict [(k_models, VList [orders_model])])
  /\ dict_lookup [(k_models, VList [orders_model])] k_models
     = Some (VList [orders_model])
  /\ Forall named [orders_model]
  /\ post_process json_loads (envelope [VStr orders_reply])
     = ([], ok (by_name [orders_model]))
  /\ dict_lookup (by_name [orders_model]) (VStr (lit "orders"))
     = Some orders_model.
Proof.
  assert (Hr : first_reply (envelope [VStr orders_reply])
               = ok (VStr orders_reply)) by reflexivity.
  assert (Hd : json_loads (strip (normalize_text orders_reply))
               = ok (VDict [(k_models, VList [orders_model])]))
    by (vm_compute; reflexivity).
  assert (Hm : dict_lookup [(k_models, VList [orders_model])] k_models
               = Some (VList [orders_model])) by reflexivity.
  assert (Hn : Forall named [orders_model]).
  { constructor; [|constructor].
    eexists _, (VStr (lit "orders")).
    split; [reflexivity|]. split; reflexivity. }
  destruct (proj1 post_process_files_models_by_name json_loads _ _ _ _
              Hr Hd Hm Hn) as (Hp & _ & _ & Hl).
  repeat (split; [assumption|]).
  rewrite Hl. reflexivity.
Defined.

(** C3 as the specification states it does not hold.  The text
    [{"models":[{"name":"a  b"}]}] is a JSON object with a list under
    ["models"], whose element is named ["a  b"]; [post_process] decodes the
    whitespace-normalized text and files the element under ["a b"].  The
    text [{"models":[{}]}] is one too, and [post_process] raises
    [KeyError] on its element. *)
Lemma post_process_models_counterexample :
  (json_loads spaced_reply
     = ok (VDict [(k_models, VList [VDict [(k_name, VStr (lit "a  b"))]])])
   /\ post_process json_loads (envelope [VStr spaced_reply])
      = ([], ok [(VStr (lit "a b"), VDict [(k_name, VStr (lit "a b"))])])
   /\ outcome (post_process json_loads (envelope [VStr spaced_reply]))
      <> ok (by_name [VDict [(k_name, VStr (lit "a  b"))]]))
  /\ (json_loads nameless_reply = ok (VDict [(k_models, VList [VDict []])])
      /\ post_process json_loads (envelope [VStr nameless_reply])
         = ([], raise (KeyError k_name))).
Proof.
  split; [split; [|split]|split]; try (vm_compute; reflexivity).
  vm_compute. discriminate.
Qed.

(** ** What [picked_models] answers *)

(** An entity record: a mapping with a name, columns and properties. *)
Definition entity (model : value) : Prop :=
  exists e n c p,
    model = VDict e /\ dict_lookup e k_name = Some n
    /\ dict_lookup e k_columns = Some c
    /\ dict_lookup e k_properties = Some p.

(** A schema descriptor: a mapping whose ["models"] is a list of entity
    records. *)
Definition schema_descriptor (mdl : dict) (entities : list value) : Prop :=
  dict_lookup mdl k_models = Some (VList entities) /\ Forall entity entities.

Definition field (model key : value) : value :=
  match model with
  | VDict e => dict_get e key
  | _ => VNone
  end.

(** The entity's name is one of the selected names. *)
Definition selected (selected_models : list str) (model : value) : bool :=
  str_in (name_of model) selected_models.

(** The entity reduced to its name, columns and properties. *)
Definition simplified (model : value) : value :=
  VDict [(k_name, field model k_name);
         (k_columns, field model k_columns);
         (k_properties, field model k_properties)].

Lemma selected_spec (selected_models : list str) (model : value) :
  selected selected_models model = true
  <-> exists s, name_of model = VStr s /\ In s selected_models.
Proof.
  unfold selected, str_in. destruct (name_of model) as [| | | |s| |];
    try (split; [discriminate | intros (s' & H & _); discriminate H]).
  rewrite existsb_exists. split.
  - intros (x & Hin & Hx). apply str_eqb_eq in Hx as ->. now exists x.
  - intros (s' & [= <-] & Hin). exists s. split; [exact Hin|].
    apply str_eqb_refl.
Qed.

Lemma entity_subscripts (model : value) :
  entity model ->
  subscript model k_name = ok (name_of model)
  /\ extract model = ok (simplified model).
Proof.
  intros (e & n & c & p & -> & Hn & Hc & Hp).
  unfold extract, simplified, name_of, field, dict_get. simpl.
  rewrite Hn, Hc, Hp. split; reflexivity.
Qed.

Lemma picked_models_loop_entities (entities : list value)
    (selected_models : list str) :
  Forall entity entities ->
  picked_models_loop entities selected_models =
    ok (List.map simplified
          (List.filter (selected selected_models) entities)).
Proof.
  induction 1 as [|model rest Hm _ IH]; [reflexivity|].
  destruct (entity_subscripts model Hm) as [Hn He].
  simpl. rewrite Hn. simpl. unfold selected at 1.
  destruct (str_in (name_of model) selected_models).
  - rewrite He, IH. reflexivity.
  - exact IH.
Qed.

Lemma filter_selected_absent (entities : list value) (absent : str)
    (selected_models : list str) :
  (forall model, In model entities -> name_of model <> VStr absent) ->
  List.filter (selected (absent :: selected_models)) entities
  = List.filter (selected selected_models) entities.
Proof.
  intros Habs. apply filter_ext_in. intros model Hin.
  unfold selected, str_in. specialize (Habs model Hin).
  destruct (name_of model) as [| | | |s| |]; try reflexivity.
  simpl. destruct (str_eqb s absent) eqn:E; [|reflexivity].
  apply str_eqb_eq in E. congruence.
Qed.

(** C2. For every schema descriptor (a mapping whose ["models"] is a list
    of entity records, each with a name, columns and properties) and every
    selection list, [picked_models] answers exactly the entities whose name
    is in the selection, each reduced to the keys name, columns and
    properties, in the descriptor's order, and raises nothing.  An empty
    selection gives the empty sequence, and a selected name that no entity
    bears changes nothing. *)
Theorem picked_models_selects (mdl : dict) (entities : list value)
    (selected_models : list str) :
  schema_descriptor mdl entities ->
  picked_models mdl selected_models
  = ok (List.map simplified
          (List.filter (selected selected_models) entities))
  /\ picked_models mdl [] = ok []
  /\ (forall absent : str,
         (forall model, In model entities -> name_of model <> VStr absent) ->
         picked_models mdl (absent :: selected_models)
         = picked_models mdl selected_models).
Proof.
  intros [Hm Hall].
  assert (Hp : forall sel, picked_models mdl sel
               = ok (List.map simplified (List.filter (selected sel) entities))).
  { intros sel. unfold picked_models. simpl. rewrite Hm. simpl.
    now apply picked_models_loop_entities. }
  split; [apply Hp|]. split.
  - rewrite Hp. f_equal.
    assert (Hnone : List.filter (selected []) entities = []).
    { clear. induction entities as [|m ms IH]; [reflexivity|].
      simpl. unfold selected at 1, str_in.
      destruct (name_of m); simpl; exact IH. }
    now rewrite Hnone.
  - intros absent Habs. rewrite !Hp.
    now rewrite filter_selected_absent.
Qed.

(** A descriptor with three tables. *)
Definition table (name : string) : value :=
  VDict [(k_name, VStr (lit name));
         (k_columns,
          VList [VDict [(k_name, VStr (lit "id"));
                        (VStr (lit "type"), VStr (lit "integer"));
                        (k_properties, VDict [])]]);
         (VStr (lit "primaryKey"), VStr (lit "id"));
         (k_properties, VDict [])].

Definition example_mdl : dict :=
  [(VStr (lit "catalog"), VStr (lit "shop"));
   (k_models, VList [table "orders"; table "products"; table "customers"])].

Lemma entity_table (name : string) : entity (table name).
Proof.
  unfold entity, table. eexists _, _, _, _.
  split; [reflexivity|]. repeat split; reflexivity.
Qed.

Lemma picked_models_selects_witness :
  schema_descriptor example_mdl
    [table "orders"; table "products"; table "customers"]
  /\ picked_models example_mdl [lit "customers"; lit "missing"; lit "orders"]
     = ok [simplified (table "orders"); simplified (table "customers")]
  /\ picked_models example_mdl [] = ok [].
Proof.
  assert (Hs : schema_descriptor example_mdl
                 [table "orders"; table "products"; table "customers"]).
  { split; [reflexivity|]. repeat constructor; apply entity_table. }
  destruct (picked_models_selects example_mdl _
              [lit "customers"; lit "missing"; lit "orders"] Hs)
    as (Hp & He & _).
  split; [exact Hs|]. split; [|exact He].
  rewrite Hp. reflexivity.
Defined.

(** ** The pipeline *)

Section RunFacts.

Variable loads : str -> result value.

Lemma run_stages (self : components) (user_prompt : str)
    (selected_models : list str) (mdl : dict) (picked : list value)
    (p : dict) :
  picked_models mdl selected_models = ok picked ->
  prompt picked user_prompt (prompt_builder self) = ok p ->
  run loads self user_prompt selected_models mdl =
    (LogInfo running :: GeneratorRun (dict_get p k_prompt)
       :: events (g <~ lift (generator self (dict_get p k_prompt)) ;;
                  r <~ post_process loads g ;;
                  mret [(k_post_process, VDict r)]),
     outcome (g <~ lift (generator self (dict_get p k_prompt)) ;;
              r <~ post_process loads g ;;
              mret [(k_post_process, VDict r)])).
Proof.
  intros Hpick Hprompt. unfold run. rewrite Hpick.
  unfold emit. rewrite mbind_events, mbind_ok, Hprompt, mbind_ok.
  unfold generate, emit. rewrite mbind_events.
  destruct (generator self (dict_get p k_prompt)) as [e | g];
    [reflexivity|].
  rewrite !mbind_ok. cbn [events outcome lift fst snd app].
  unfold ok. rewrite (mbind_events _ g). reflexivity.
Qed.

End RunFacts.

(** A generator whose call fails. *)
Definition failing_generator (p : value) : result dict :=
  raise (ProviderError (lit "connection reset")).

(** A stand-in for the template renderer: the prompt is the user's text. *)
Definition plain_builder (picked : list value) (user_prompt : str)
  : result dict :=
  ok [(k_prompt, VStr user_prompt)].

(** A generator that describes one model, named after its prompt. *)
Definition naming_generator (p : value) : result dict :=
  match p with
  | VStr s =>
      ok (envelope [VStr (quoted "{'models':[{'name':'" ++ s
                          ++ quoted "'}]}")])
  | _ => raise TypeError
  end.

(** C6. When the generator's call fails with an exception, with the
    stages before it done, [generate] ends with that exception and so does
    [run]: no stage catches it, the generator has been called once (no
    retry), nothing follows the call, and no result mapping is answered. *)
Theorem generator_failure_propagates
    (loads : str -> result value) (self : components) (user_prompt : str)
    (selected_models : list str) (mdl : dict) (picked : list value)
    (p : dict) (e : exn) :
  picked_models mdl selected_models = ok picked ->
  prompt picked user_prompt (prompt_builder self) = ok p ->
  generator self (dict_get p k_prompt) = raise e ->
  generate p (generator self)
  = ([GeneratorRun (dict_get p k_prompt)], raise e)
  /\ run loads self user_prompt selected_models mdl
     = ([LogInfo running; GeneratorRun (dict_get p k_prompt)], raise e).
Proof.
  intros Hpick Hprompt Hgen. split.
  - unfold generate, emit, lift. rewrite Hgen. reflexivity.
  - rewrite (run_stages loads self _ _ _ _ _ Hpick Hprompt), Hgen.
    reflexivity.
Qed.

Lemma generator_failure_propagates_witness :
  let self := {| prompt_builder := plain_builder;
                 generator := failing_generator |} in
  let e := ProviderError (lit "connection reset") in
  picked_models example_mdl [lit "orders"] = ok [simplified (table "orders")]
  /\ prompt [simplified (table "orders")] (lit "describe")
       (prompt_builder self) = ok [(k_prompt, VStr (lit "describe"))]
  /\ generator self (VStr (lit "describe")) = raise e
  /\ run json_loads self (lit "describe") [lit "orders"] example_mdl
     = ([LogInfo running; GeneratorRun (VStr (lit "describe"))], raise e).
Proof.
  intros self e.
  assert (H1 : picked_models example_mdl [lit "orders"]
               = ok [simplified (table "orders")]) by reflexivity.
  assert (H2 : prompt [simplified (table "orders")] (lit "describe")
                 (prompt_builder self) = ok [(k_prompt, VStr (lit "describe"))])
    by reflexivity.
  assert (H3 : generator self (dict_get [(k_prompt, VStr (lit "describe"))]
                                 k_prompt) = raise e) by reflexivity.
  repeat (split; [assumption|]).
  exact (proj2 (generator_failure_propagates json_loads self _ _ _ _ _ e
                  H1 H2 H3)).
Defined.

(** ** [picked_models] over an object store

    Lists and mappings are objects with an identity: [mdl] is a reference,
    and the records [extract] builds hold the very [columns] and
    [properties] objects of the selected models.  Here [picked_models] is
    embedded once more, over a store of objects, to tell what it writes. *)

Module Store.

Definition loc : Type := positive.

(** What a variable or a slot holds: an immutable scalar, or a reference
    to a list or mapping object. *)
Inductive ref : Type :=
| RNone
| RBool (b : bool)
| RInt (z : Z)
| RFloat (f : spec_float)
| RStr (s : str)
| RObj (l : loc).

Inductive obj : Type :=
| OList (items : list ref)
| ODict (entries : list (ref * ref)).

Abbreviation store := (gmap loc obj).

(** The scalar a slot holds, as a value. *)
Definition scalar (r : ref) : option value :=
  match r with
  | RNone => Some VNone
  | RBool b => Some (VBool b)
  | RInt z => Some (VInt z)
  | RFloat f => Some (VFloat f)
  | RStr s => Some (VStr s)
  | RObj _ => None
  end.

(** Keys are compared as in [key_eqb]; list and mapping objects are
    unhashable. *)
Definition ref_eqb (a b : ref) : bool :=
  match scalar a, scalar b with
  | Some x, Some y => key_eqb x y
  | _, _ => false
  end.

Definition ref_hashable (r : ref) : bool :=
  match r with
  | RObj _ => false
  | _ => true
  end.

Fixpoint entries_lookup (d : list (ref * ref)) (k : ref) : option ref :=
  match d with
  | [] => None
  | (k', v) :: rest => if ref_eqb k' k then Some v else entries_lookup rest k
  end.

(** Store-passing computations: an outcome and the store afterwards. *)
Definition St (A : Type) : Type := store -> result A * store.

Definition sret {A : Type} (a : A) : St A := fun h => (ok a, h).
Definition sraise {A : Type} (e : exn) : St A := fun h => (raise e, h).

Definition sbind {A B : Type} (m : St A) (k : A -> St B) : St B :=
  fun h => match m h with
           | (inl e, h') => (inl e, h')
           | (inr a, h') => k a h'
           end.

Declare Scope store_scope.
Notation "x <~ m ;; k" := (sbind m (fun x => k))
  (at level 100, m at next level, right associativity) : store_scope.
Notation "m ;;; k" := (sbind m (fun _ => k))
  (at level 100, right associativity) : store_scope.
Local Open Scope store_scope.

(** [obj[key]]: a read.  (A reference always has its object in the store;
    the [None] branch is there for totality.) *)
Definition subscript (o key : ref) : St ref :=
  fun h =>
    (match o with
     | RObj l =>
         match h !! l with
         | Some (ODict d) =>
             if ref_hashable key then
               match entries_lookup d key with
               | Some v => ok v
               | None => raise (KeyError (default VNone (scalar key)))
               end
             else raise TypeError
         | Some (OList items) =>
             match key with
             | RInt i => seq_index items i
             | RBool b => seq_index items (int_of_bool b)
             | _ => raise TypeError
             end
         | None => raise TypeError
         end
     | RStr s =>
         match key with
         | RInt i => c <- seq_index s i ;; ok (RStr [c])
         | RBool b => c <- seq_index s (int_of_bool b) ;; ok (RStr [c])
         | _ => raise TypeError
         end
     | _ => raise TypeError
     end, h).

(** The objects [for x in obj] goes through: a read. *)
Definition iterate (o : ref) : St (list ref) :=
  fun h =>
    (match o with
     | RObj l =>
         match h !! l with
         | Some (OList items) => ok items
         | Some (ODict d) => ok (List.map fst d)
         | None => raise TypeError
         end
     | RStr s => ok (List.map (fun c => RStr [c]) s)
     | _ => raise TypeError
     end, h).

(** A new object, at a location the store does not use. *)
Definition alloc (o : obj) : St loc :=
  fun h => let l := fresh (dom h) in (ok l, <[l := o]> h).

(** [list.append], the one write of a list comprehension. *)
Definition append (l : loc) (x : ref) : St unit :=
  fun h =>
    match h !! l with
    | Some (OList items) => (ok tt, <[l := OList (items ++ [x])]> h)
    | _ => (raise TypeError, h)
    end.

Definition r_name : ref := RStr (lit "name").
Definition r_columns : ref := RStr (lit "columns").
Definition r_properties : ref := RStr (lit "properties").
Definition r_models : ref := RStr (lit "models").

(** [extract] allocates the new record; its slots hold what the model's
    slots hold. *)
Definition extract (model : ref) : St ref :=
  name <~ subscript model r_name ;;
  columns <~ subscript model r_columns ;;
  properties <~ subscript model r_properties ;;
  l <~ alloc (ODict [(r_name, name); (r_columns, columns);
                     (r_properties, properties)]) ;;
  sret (RObj l).

Definition ref_in (x : ref) (selected_models : list str) : bool :=
  match x with
  | RStr s => existsb (str_eqb s) selected_models
  | _ => false
  end.

(** The comprehension appends to the list it has created, [out]. *)
Fixpoint picked_models_loop (out : loc) (models : list ref)
    (selected_models : list str) : St unit :=
  match models with
  | [] => sret tt
  | model :: rest =>
      name <~ subscript model r_name ;;
      if ref_in name selected_models then
        picked <~ extract model ;;
        append out picked ;;;
        picked_models_loop out rest selected_models
      else picked_models_loop out rest selected_models
  end.

Definition picked_models (mdl : ref) (selected_models : list str) : St ref :=
  models <~ subscript mdl r_models ;;
  items <~ iterate models ;;
  out <~ alloc (OList []) ;;
  picked_models_loop out items selected_models ;;;
  sret (RObj out).

(** Every object of [h] is in [h'], with the same contents. *)
Definition preserved (h h' : store) : Prop :=
  forall l o, h !! l = Some o -> h' !! l = Some o.

Lemma preserved_refl (h : store) : preserved h h.
Proof. intros l o H. exact H. Qed.

Lemma subscript_store (o key : ref) (h : store) :
  snd (subscript o key h) = h.
Proof. reflexivity. Qed.

Lemma iterate_store (o : ref) (h : store) : snd (iterate o h) = h.
Proof. reflexivity. Qed.

Lemma preserved_alloc (h0 h : store) (o : obj) :
  preserved h0 h -> preserved h0 (snd (alloc o h)).
Proof.
  intros Hp l o' Hl. unfold alloc. simpl.
  rewrite lookup_insert_ne; [now apply Hp|].
  intros <-. apply Hp in Hl.
  pose proof (is_fresh (dom h)) as Hf.
  apply Hf. apply elem_of_dom. now exists o'.
Qed.

Lemma preserved_append (h0 h : store) (out : loc) (x : ref) :
  h0 !! out = None -> preserved h0 h -> preserved h0 (snd (append out x h)).
Proof.
  intros Hout Hp l o Hl. unfold append.
  destruct (h !! out) as [[items | d] |]; simpl; try now apply Hp.
  rewrite lookup_insert_ne; [now apply Hp|].
  intros <-. congruence.
Qed.

Lemma preserved_extract (h0 h : store) (model : ref) :
  preserved h0 h -> preserved h0 (snd (extract model h)).
Proof.
  intros Hp. unfold extract, sbind, subscript. simpl.
  repeat match goal with
         | |- context [match ?x with inl _ => _ | inr _ => _ end] =>
             destruct x; simpl; try exact Hp
         end.
  apply (preserved_alloc h0 h _ Hp).
Qed.

Lemma preserved_loop (h0 : store) (out : loc) (models : list ref)
    (selected_models : list str) (h : store) :
  h0 !! out = None -> preserved h0 h ->
  preserved h0 (snd (picked_models_loop out models selected_models h)).
Proof.
  intros Hout. revert h. induction models as [|model rest IH]; intros h Hp;
    [exact Hp|].
  cbn [picked_models_loop]. unfold sbind at 1.
  destruct (subscript model r_name h) as [[e | name] h1] eqn:Hs;
    pose proof (subscript_store model r_name h) as Hh; rewrite Hs in Hh;
    simpl in Hh; subst h1; [exact Hp|].
  destruct (ref_in name selected_models); [|now apply IH].
  unfold sbind at 1.
  pose proof (preserved_extract h0 h model Hp) as He.
  destruct (extract model h) as [[e | picked] h2]; [exact He|].
  simpl in He. unfold sbind at 1.
  pose proof (preserved_append h0 h2 out picked Hout He) as Ha.
  destruct (append out picked h2) as [[e | []] h3]; [exact Ha|].
  apply IH. exact Ha.
Qed.

(** C8. [picked_models] has no side effect on its input: whatever the
    store holds when it is called (the descriptor, its ["models"] list,
    every entity record and what they refer to) is in the store afterwards
    with the same contents, whether the call returns or raises; it writes
    only to the objects it has created. *)
Theorem picked_models_preserves_store (mdl : ref)
    (selected_models : list str) (h : store) (l : loc) (o : obj) :
  h !! l = Some o ->
  snd (picked_models mdl selected_models h) !! l = Some o.
Proof.
  revert l o. change (preserved h (snd (picked_models mdl selected_models h))).
  unfold picked_models. unfold sbind at 1.
  destruct (subscript mdl r_models h) as [[e | models] h1] eqn:Hs;
    pose proof (subscript_store mdl r_models h) as Hh; rewrite Hs in Hh;
    simpl in Hh; subst h1; [apply preserved_refl|].
  unfold sbind at 1.
  destruct (iterate models h) as [[e | items] h1] eqn:Hi;
    pose proof (iterate_store models h) as Hh; rewrite Hi in Hh;
    simpl in Hh; subst h1; [apply preserved_refl|].
  unfold sbind at 1. unfold alloc at 1.
  set (out := fresh (dom h)).
  assert (Hout : h !! out = None).
  { apply not_elem_of_dom. apply is_fresh. }
  assert (Hp : preserved h (<[out := OList []]> h)).
  { intros l' o' H'. rewrite lookup_insert_ne; [exact H'|].
    intros <-. congruence. }
  pose proof (preserved_loop h out items selected_models
                (<[out := OList []]> h) Hout Hp) as Hl.
  unfold sbind, ok. cbn beta iota.
  destruct (picked_models_loop out items selected_models
              (<[out := OList []]> h)) as [[e | []] h']; exact Hl.
Qed.

End Store.

(** ** The two embeddings of [picked_models] agree *)

(** Reading a sequence of slots, and the entries of a mapping, with [f]. *)
Fixpoint read_list (f : Store.ref -> option value) (items : list Store.ref)
  : option (list value) :=
  match items with
  | [] => Some []
  | x :: xs =>
      match f x, read_list f xs with
      | Some v, Some vs => Some (v :: vs)
      | _, _ => None
      end
  end.

Fixpoint read_entries (f : Store.ref -> option value)
    (d : list (Store.ref * Store.ref)) : option dict :=
  match d with
  | [] => Some []
  | (k, x) :: rest =>
      match Store.scalar k, f x, read_entries f rest with
      | Some k', Some v, Some d' => Some ((k', v) :: d')
      | _, _, _ => None
      end
  end.

(** The value an object of the store stands for, read to depth [n]. *)
Fixpoint reify (n : nat) (h : Store.store) (r : Store.ref) : option value :=
  match r with
  | Store.RObj l =>
      match n with
      | O => None
      | S n' =>
          match h !! l with
          | Some (Store.OList items) =>
              option_map VList (read_list (reify n' h) items)
          | Some (Store.ODict d) =>
              option_map VDict (read_entries (reify n' h) d)
          | None => None
          end
      end
  | _ => Store.scalar r
  end.

Lemma read_list_ext (f g : Store.ref -> option value) (items : list Store.ref)
    (vs : list value) :
  (forall x v, f x = Some v -> g x = Some v) ->
  read_list f items = Some vs -> read_list g items = Some vs.
Proof.
  intros Hfg. revert vs. induction items as [|x xs IH]; intros vs; simpl;
    [auto|].
  destruct (f x) as [v|] eqn:Hx; [|discriminate].
  destruct (read_list f xs) as [vs'|]; [|discriminate].
  intros [= <-]. now rewrite (Hfg _ _ Hx), (IH vs' eq_refl).
Qed.

Lemma read_entries_ext (f g : Store.ref -> option value)
    (d : list (Store.ref * Store.ref)) (d' : dict) :
  (forall x v, f x = Some v -> g x = Some v) ->
  read_entries f d = Some d' -> read_entries g d = Some d'.
Proof.
  intros Hfg. revert d'. induction d as [|[k x] rest IH]; intros d'; simpl;
    [auto|].
  destruct (Store.scalar k) as [k'|]; [|discriminate].
  destruct (f x) as [v|] eqn:Hx; [|discriminate].
  destruct (read_entries f rest) as [r'|]; [|discriminate].
  intros [= <-]. now rewrite (Hfg _ _ Hx), (IH r' eq_refl).
Qed.

Lemma reify_store (n : nat) (h h' : Store.store) (r : Store.ref) (v : value) :
  Store.preserved h h' -> reify n h r = Some v -> reify n h' r = Some v.
Proof.
  intros Hp. revert r v. induction n as [|n IH]; intros r v;
    destruct r as [| | | | |l]; simpl; try exact (fun H => H).
  destruct (h !! l) as [o|] eqn:Hl; [|discriminate].
  rewrite (Hp _ _ Hl). destruct o as [items | d].
  - destruct (read_list (reify n h) items) as [vs|] eqn:Hr; [|discriminate].
    now rewrite (read_list_ext _ _ _ _ IH Hr).
  - destruct (read_entries (reify n h) d) as [d'|] eqn:Hr; [|discriminate].
    now rewrite (read_entries_ext _ _ _ _ IH Hr).
Qed.

Lemma reify_deeper (n : nat) (h : Store.store) (r : Store.ref) (v : value) :
  reify n h r = Some v -> reify (S n) h r = Some v.
Proof.
  revert r v. induction n as [|n IH]; intros r v;
    destruct r as [| | | | |l]; try exact (fun H => H);
    [discriminate|].
  intros H. simpl in H. change (reify (S (S n)) h (Store.RObj l))
    with (match h !! l with
          | Some (Store.OList items) =>
              option_map VList (read_list (reify (S n) h) items)
          | Some (Store.ODict d) =>
              option_map VDict (read_entries (reify (S n) h) d)
          | None => None
          end).
  destruct (h !! l) as [[items | d]|]; [| |discriminate].
  - destruct (read_list (reify n h) items) as [vs|] eqn:Hr; [|discriminate].
    now rewrite (read_list_ext _ _ _ _ IH Hr).
  - destruct (read_entries (reify n h) d) as [d'|] eqn:Hr; [|discriminate].
    now rewrite (read_entries_ext _ _ _ _ IH Hr).
Qed.

Lemma read_entries_lookup (f : Store.ref -> option value)
    (d : list (Store.ref * Store.ref)) (d' : dict) (s : str) :
  read_entries f d = Some d' ->
  match dict_lookup d' (VStr s) with
  | Some v => exists r, Store.entries_lookup d (Store.RStr s) = Some r
                        /\ f r = Some v
  | None => Store.entries_lookup d (Store.RStr s) = None
  end.
Proof.
  revert d'. induction d as [|[k x] rest IH]; intros d'; simpl.
  - intros [= <-]. reflexivity.
  - destruct (Store.scalar k) as [k'|] eqn:Hk; [|discriminate].
    destruct (f x) as [v|] eqn:Hx; [|discriminate].
    destruct (read_entries f rest) as [r'|]; [|discriminate].
    intros [= <-]. simpl. unfold Store.ref_eqb. rewrite Hk. simpl.
    destruct (key_eqb k' (VStr s)); [now exists x|].
    exact (IH r' eq_refl).
Qed.

(** [obj["..."]] reads the same slot in both embeddings; [h] holds the
    objects of [h0], and maybe more. *)
Lemma subscript_reify (n : nat) (h0 h : Store.store) (o : Store.ref)
    (vo : value) (s : str) :
  Store.preserved h0 h ->
  reify n h0 o = Some vo ->
  match subscript vo (VStr s) with
  | inr v => exists r, Store.subscript o (Store.RStr s) h = (ok r, h)
                       /\ reify n h0 r = Some v
  | inl e => Store.subscript o (Store.RStr s) h = (raise e, h)
  end.
Proof.
  intros Hp.
  destruct n as [|n], o as [| | | | |l]; simpl;
    try (intros [= <-]; reflexivity); try discriminate.
  unfold Store.subscript.
  destruct (h0 !! l) as [o|] eqn:Hl; [|discriminate].
  rewrite (Hp _ _ Hl). destruct o as [items | d].
  - destruct (read_list (reify n h0) items); [|discriminate].
    intros [= <-]. reflexivity.
  - destruct (read_entries (reify n h0) d) as [d'|] eqn:Hr; [|discriminate].
    intros [= <-]. simpl.
    pose proof (read_entries_lookup _ _ _ s Hr) as Hlk.
    destruct (dict_lookup d' (VStr s)) as [v|].
    + destruct Hlk as (r & -> & Hv). exists r. split; [reflexivity|].
      now apply reify_deeper.
    + now rewrite Hlk.
Qed.

Lemma read_list_scalars (f : Store.ref -> option value)
    (d : list (Store.ref * Store.ref)) (d' : dict) :
  (forall r v, Store.scalar r = Some v -> f r = Some v) ->
  read_entries f d = Some d' ->
  read_list f (List.map fst d) = Some (List.map fst d').
Proof.
  intros Hf. revert d'. induction d as [|[k x] rest IH]; intros d'; simpl.
  - intros [= <-]. reflexivity.
  - destruct (Store.scalar k) as [k'|] eqn:Hk; [|discriminate].
    destruct (f x) as [v|]; [|discriminate].
    destruct (read_entries f rest) as [r'|]; [|discriminate].
    intros [= <-]. now rewrite (Hf _ _ Hk), (IH r' eq_refl).
Qed.

Lemma reify_scalar (n : nat) (h : Store.store) (r : Store.ref) (v : value) :
  Store.scalar r = Some v -> reify n h r = Some v.
Proof. destruct r, n; simpl; auto; discriminate. Qed.

(** [for x in obj] goes through the same objects in both embeddings. *)
Lemma iterate_reify (n : nat) (h : Store.store) (o : Store.ref) (vo : value) :
  reify n h o = Some vo ->
  match iterate vo with
  | inr vs => exists rs, Store.iterate o h = (ok rs, h)
                         /\ read_list (reify n h) rs = Some vs
  | inl e => Store.iterate o h = (raise e, h)
  end.
Proof.
  destruct o as [| | | |s|l];
    try (destruct n; simpl; intros [= <-]; reflexivity).
  - intros Hs. assert (vo = VStr s) as -> by (destruct n; simpl in Hs; congruence).
    simpl. eexists. split; [reflexivity|].
    clear Hs. induction s as [|c s IH]; [reflexivity|]. simpl.
    rewrite IH. now destruct n.
  - destruct n as [|n]; [discriminate|]. simpl. unfold Store.iterate.
    destruct (h !! l) as [[items | d]|]; [| |discriminate].
    + destruct (read_list (reify n h) items) as [vs|] eqn:Hr; [|discriminate].
      intros [= <-]. simpl. exists items. split; [reflexivity|].
      exact (read_list_ext _ _ _ _ (reify_deeper n h) Hr).
    + destruct (read_entries (reify n h) d) as [d'|] eqn:Hr; [|discriminate].
      intros [= <-]. simpl. exists (List.map fst d). split; [reflexivity|].
      apply read_list_scalars; [exact (reify_scalar (S n) h)|].
      exact (read_entries_ext _ _ _ _ (reify_deeper n h) Hr).
Qed.

Lemma ref_in_reify (n : nat) (h : Store.store) (r : Store.ref) (v : value)
    (selected_models : list str) :
  reify n h r = Some v ->
  Store.ref_in r selected_models = str_in v selected_models.
Proof.
  destruct n as [|n], r as [| | | | |l]; simpl;
    try (intros [= <-]; reflexivity); try discriminate.
  destruct (h !! l) as [[items | d]|]; [| |discriminate].
  - destruct (read_list _ _); [|discriminate]. intros [= <-]. reflexivity.
  - destruct (read_entries _ _); [|discriminate]. intros [= <-]. reflexivity.
Qed.

Lemma sbind_ok {A B : Type} (m : Store.St A) (k : A -> Store.St B)
    (h h' : Store.store) (a : A) :
  m h = (ok a, h') -> Store.sbind m k h = k a h'.
Proof. unfold Store.sbind. now intros ->. Qed.

Lemma sbind_raise {A B : Type} (m : Store.St A) (k : A -> Store.St B)
    (h h' : Store.store) (e : exn) :
  m h = (raise e, h') -> Store.sbind m k h = (raise e, h').
Proof. unfold Store.sbind. now intros ->. Qed.

Section Refinement.

Variable n : nat.
Variable h0 : Store.store.
Variable out : Store.loc.
Hypothesis out_new : h0 !! out = None.

(** A record that [extract] has built from a model of [h0]. *)
Definition record_at (h : Store.store) (r : Store.ref) (v : value) : Prop :=
  exists l a b c va vb vc,
    r = Store.RObj l /\ l <> out
    /\ h !! l = Some (Store.ODict [(Store.r_name, a); (Store.r_columns, b);
                                   (Store.r_properties, c)])
    /\ reify n h0 a = Some va /\ reify n h0 b = Some vb
    /\ reify n h0 c = Some vc
    /\ v = VDict [(k_name, va); (k_columns, vb); (k_properties, vc)].

Lemma record_at_kept (h h' : Store.store) (r : Store.ref) (v : value) :
  (forall l o, l <> out -> h !! l = Some o -> h' !! l = Some o) ->
  record_at h r v -> record_at h' r v.
Proof.
  intros Hk (l & a & b & c & va & vb & vc & -> & Hne & Hl & Ha & Hb & Hc & ->).
  exists l, a, b, c, va, vb, vc. repeat split; auto.
Qed.

Lemma extract_reify (h : Store.store) (model : Store.ref) (vm : value) :
  Store.preserved h0 h ->
  reify n h0 model = Some vm ->
  match extract vm with
  | inr v =>
      exists a b c va vb vc,
        Store.extract model h
        = (ok (Store.RObj (fresh (dom h))),
           <[fresh (dom h) :=
               Store.ODict [(Store.r_name, a); (Store.r_columns, b);
                            (Store.r_properties, c)]]> h)
        /\ reify n h0 a = Some va /\ reify n h0 b = Some vb
        /\ reify n h0 c = Some vc
        /\ v = VDict [(k_name, va); (k_columns, vb); (k_properties, vc)]
  | inl e => Store.extract model h = (raise e, h)
  end.
Proof.
  intros Hp Hm. unfold extract, Store.extract.
  pose proof (subscript_reify n h0 h model vm (lit "name") Hp Hm) as H1.
  pose proof (subscript_reify n h0 h model vm (lit "columns") Hp Hm) as H2.
  pose proof (subscript_reify n h0 h model vm (lit "properties") Hp Hm) as H3.
  fold k_name in H1. fold k_columns in H2. fold k_properties in H3.
  fold Store.r_name in H1. fold Store.r_columns in H2.
  fold Store.r_properties in H3.
  destruct (subscript vm k_name) as [e | va]; simpl rbind.
  { now apply sbind_raise. }
  destruct H1 as (a & Ha1 & Ha). rewrite (sbind_ok _ _ _ _ _ Ha1).
  destruct (subscript vm k_columns) as [e | vb]; simpl rbind.
  { now apply sbind_raise. }
  destruct H2 as (b & Hb1 & Hb). rewrite (sbind_ok _ _ _ _ _ Hb1).
  destruct (subscript vm k_properties) as [e | vc]; simpl rbind.
  { now apply sbind_raise. }
  destruct H3 as (c & Hc1 & Hc). rewrite (sbind_ok _ _ _ _ _ Hc1).
  exists a, b, c, va, vb, vc. repeat split; assumption.
Qed.

Lemma loop_reify (selected_models : list str) (models : list Store.ref) :
  forall (vms : list value) (h : Store.store) (acc : list Store.ref)
         (vacc : list value),
    read_list (reify n h0) models = Some vms ->
    Store.preserved h0 h ->
    h !! out = Some (Store.OList acc) ->
    Forall2 (record_at h) acc vacc ->
    match picked_models_loop vms selected_models with
    | inr vs =>
        exists h' acc',
          Store.picked_models_loop out models selected_models h = (ok tt, h')
          /\ Store.preserved h0 h'
          /\ h' !! out = Some (Store.OList (acc ++ acc'))
          /\ Forall2 (record_at h') (acc ++ acc') (vacc ++ vs)
    | inl e =>
        exists h',
          Store.picked_models_loop out models selected_models h = (raise e, h')
    end.
Proof.
  induction models as [|model rest IH]; intros vms h acc vacc Hr Hp Hout Hacc.
  - injection Hr as <-. simpl. exists h, []. rewrite !app_nil_r. auto.
  - simpl in Hr.
    destruct (reify n h0 model) as [vm|] eqn:Hm; [|discriminate].
    destruct (read_list (reify n h0) rest) as [vrest|] eqn:Hrest;
      [|discriminate].
    injection Hr as <-.
    cbn [picked_models_loop Store.picked_models_loop].
    pose proof (subscript_reify n h0 h model vm (lit "name") Hp Hm) as Hn.
    fold k_name in Hn. fold Store.r_name in Hn.
    destruct (subscript vm k_name) as [e | vname]; simpl rbind.
    { exists h. now apply sbind_raise. }
    destruct Hn as (name & Hn & Hname). rewrite (sbind_ok _ _ _ _ _ Hn).
    rewrite (ref_in_reify n h0 name vname selected_models Hname).
    destruct (str_in vname selected_models);
      [|exact (IH vrest h acc vacc eq_refl Hp Hout Hacc)].
    pose proof (extract_reify h model vm Hp Hm) as He.
    destruct (extract vm) as [e | v]; simpl rbind.
    { exists h. now apply sbind_raise. }
    destruct He as (a & b & c & va & vb & vc & He & Ha & Hb & Hc & ->).
    rewrite (sbind_ok _ _ _ _ _ He).
    set (l := fresh (dom h)).
    set (rec := Store.ODict [(Store.r_name, a); (Store.r_columns, b);
                             (Store.r_properties, c)]).
    assert (Hl : h !! l = None) by (apply not_elem_of_dom, is_fresh).
    assert (Hlo : l <> out) by (intros ->; congruence).
    set (h2 := <[out := Store.OList (acc ++ [Store.RObj l])]> (<[l := rec]> h)).
    assert (Happ : Store.append out (Store.RObj l) (<[l := rec]> h)
                   = (ok tt, h2)).
    { unfold Store.append. rewrite lookup_insert_ne by exact Hlo.
      now rewrite Hout. }
    rewrite (sbind_ok _ _ _ _ _ Happ).
    assert (Hp2 : Store.preserved h0 h2).
    { intros l' o' H'. unfold h2.
      rewrite lookup_insert_ne by (intros <-; congruence).
      rewrite lookup_insert_ne by (intros <-; apply Hp in H'; congruence).
      now apply Hp. }
    assert (Hout2 : h2 !! out = Some (Store.OList (acc ++ [Store.RObj l])))
      by apply lookup_insert_eq.
    assert (Hacc2 : Forall2 (record_at h2) (acc ++ [Store.RObj l])
                      (vacc ++ [VDict [(k_name, va); (k_columns, vb);
                                       (k_properties, vc)]])).
    { apply Forall2_app.
      - eapply Forall2_impl; [exact Hacc|]. intros r v Hrv.
        apply (record_at_kept h h2 r v); [|exact Hrv].
        intros l' o' Hne H'. unfold h2.
        rewrite lookup_insert_ne by congruence.
        rewrite lookup_insert_ne by (intros <-; congruence). exact H'.
      - constructor; [|constructor].
        exists l, a, b, c, va, vb, vc. repeat split; auto.
        unfold h2. rewrite lookup_insert_ne by congruence.
        apply lookup_insert_eq. }
    specialize (IH vrest h2 _ _ eq_refl Hp2 Hout2 Hacc2).
    destruct (picked_models_loop vrest selected_models) as [e | others];
      simpl rbind.
    + exact IH.
    + destruct IH as (h' & acc' & Hloop & Hp' & Hout' & Hacc').
      exists h', (Store.RObj l :: acc').
      rewrite <- app_assoc in Hout'. rewrite <- !app_assoc in Hacc'.
      repeat split; assumption.
Qed.

End Refinement.

Lemma reify_obj (n : nat) (h : Store.store) (l : Store.loc) :
  reify (S n) h (Store.RObj l)
  = match h !! l with
    | Some (Store.OList items) =>
        option_map VList (read_list (reify n h) items)
    | Some (Store.ODict d) => option_map VDict (read_entries (reify n h) d)
    | None => None
    end.
Proof. reflexivity. Qed.

Lemma records_reify (n : nat) (h0 h : Store.store) (out : Store.loc)
    (acc : list Store.ref) (vs : list value) :
  Store.preserved h0 h ->
  Forall2 (record_at n h0 out h) acc vs ->
  read_list (reify (S n) h) acc = Some vs.
Proof.
  intros Hp. induction 1 as [|r v acc vs Hr _ IH]; [reflexivity|].
  destruct Hr as (l & a & b & c & va & vb & vc
                  & -> & _ & Hl & Ha & Hb & Hc & ->).
  cbn [read_list]. rewrite IH, reify_obj, Hl.
  cbn [read_entries Store.scalar Store.r_name Store.r_columns
         Store.r_properties].
  rewrite (reify_store n h0 h a va Hp Ha), (reify_store n h0 h b vb Hp Hb),
    (reify_store n h0 h c vc Hp Hc).
  reflexivity.
Qed.

(** The store embedding simulates the value embedding. *)
Lemma picked_models_simulates (n : nat) (h : Store.store)
    (mdl : Store.ref) (m : dict) (selected_models : list str) :
  reify n h mdl = Some (VDict m) ->
  match picked_models m selected_models with
  | inr vs =>
      exists out h',
        Store.picked_models mdl selected_models h = (ok (Store.RObj out), h')
        /\ h !! out = None
        /\ reify (S (S n)) h' (Store.RObj out) = Some (VList vs)
  | inl e =>
      exists h', Store.picked_models mdl selected_models h = (raise e, h')
  end.
Proof.
  intros Hm. unfold picked_models, Store.picked_models.
  pose proof (subscript_reify n h h mdl (VDict m) (lit "models")
                (Store.preserved_refl h) Hm) as Hs.
  fold k_models in Hs. fold Store.r_models in Hs.
  destruct (subscript (VDict m) k_models) as [e | vmodels]; simpl rbind.
  { exists h. now apply sbind_raise. }
  destruct Hs as (models & Hs & Hmodels). rewrite (sbind_ok _ _ _ _ _ Hs).
  pose proof (iterate_reify n h models vmodels Hmodels) as Hi.
  destruct (iterate vmodels) as [e | vitems]; simpl rbind.
  { exists h. now apply sbind_raise. }
  destruct Hi as (items & Hi & Hitems). rewrite (sbind_ok _ _ _ _ _ Hi).
  set (out := fresh (dom h)).
  assert (Hout : h !! out = None) by (apply not_elem_of_dom, is_fresh).
  assert (Ha : Store.alloc (Store.OList []) h
               = (ok out, <[out := Store.OList []]> h)) by reflexivity.
  rewrite (sbind_ok _ _ _ _ _ Ha).
  assert (Hp : Store.preserved h (<[out := Store.OList []]> h)).
  { intros l o Hl. rewrite lookup_insert_ne; [exact Hl|].
    intros <-. congruence. }
  pose proof (loop_reify n h out Hout selected_models items vitems
                (<[out := Store.OList []]> h) [] [] Hitems Hp
                (lookup_insert_eq _ _ _) (List.Forall2_nil _)) as Hl.
  destruct (picked_models_loop vitems selected_models) as [e | vs].
  - destruct Hl as (h' & Hl). exists h'. now apply sbind_raise.
  - destruct Hl as (h' & acc' & Hl & Hp' & Hout' & Hacc').
    exists out, h'. rewrite (sbind_ok _ _ _ _ _ Hl).
    split; [reflexivity|]. split; [exact Hout|].
    simpl in Hout', Hacc'. rewrite reify_obj, Hout'.
    now rewrite (records_reify n h h' out acc' vs Hp' Hacc').
Qed.

(** X19. The store embedding computes what the value embedding computes:
    on a store where [mdl] stands for the mapping [m], the call raises the
    same exception, or answers a new list that stands for the same sequence
    of records. *)
Theorem picked_models_store_agrees (n : nat) (h : Store.store)
    (mdl : Store.ref) (m : dict) (selected_models : list str) :
  reify n h mdl = Some (VDict m) ->
  match picked_models m selected_models with
  | inr vs =>
      exists out h',
        Store.picked_models mdl selected_models h = (ok (Store.RObj out), h')
        /\ h !! out = None
        /\ reify (S (S n)) h' (Store.RObj out) = Some (VList vs)
  | inl e =>
      exists h', Store.picked_models mdl selected_models h = (raise e, h')
  end.
Proof. exact (picked_models_simulates n h mdl m selected_models). Qed.


(** A store with a descriptor of two tables, at locations 1 to 8. *)
Definition example_store : Store.store :=
  list_to_map
    [(1%positive, Store.ODict [(Store.RStr (lit "catalog"), Store.RStr (lit "shop"));
                               (Store.r_models, Store.RObj 2%positive)]);
     (2%positive, Store.OList [Store.RObj 3%positive; Store.RObj 4%positive]);
     (3%positive, Store.ODict [(Store.r_name, Store.RStr (lit "orders"));
                               (Store.r_columns, Store.RObj 5%positive);
                               (Store.r_properties, Store.RObj 6%positive)]);
     (4%positive, Store.ODict [(Store.r_name, Store.RStr (lit "products"));
                               (Store.r_columns, Store.RObj 7%positive);
                               (Store.r_properties, Store.RObj 8%positive)]);
     (5%positive, Store.OList []);
     (6%positive, Store.ODict []);
     (7%positive, Store.OList []);
     (8%positive, Store.ODict [])].

Lemma picked_models_preserves_store_witness :
  example_store !! 3%positive
  = Some (Store.ODict [(Store.r_name, Store.RStr (lit "orders"));
                       (Store.r_columns, Store.RObj 5%positive);
                       (Store.r_properties, Store.RObj 6%positive)])
  /\ snd (Store.picked_models (Store.RObj 1%positive) [lit "orders"] example_store)
       !! 3%positive
     = Some (Store.ODict [(Store.r_name, Store.RStr (lit "orders"));
                          (Store.r_columns, Store.RObj 5%positive);
                          (Store.r_properties, Store.RObj 6%positive)]).
Proof.
  assert (H : example_store !! 3%positive
              = Some (Store.ODict [(Store.r_name, Store.RStr (lit "orders"));
                                   (Store.r_columns, Store.RObj 5%positive);
                                   (Store.r_properties, Store.RObj 6%positive)]))
    by (vm_compute; reflexivity).
  split; [exact H|].
  exact (Store.picked_models_preserves_store (Store.RObj 1%positive) [lit "orders"]
           example_store 3%positive _ H).
Defined.

(** On that store the call answers a new list holding one new record,
    whose slots refer to the columns and properties of the model. *)
Example picked_models_example_store :
  exists out picked h',
    Store.picked_models (Store.RObj 1%positive) [lit "orders"; lit "missing"]
      example_store = (ok (Store.RObj out), h')
    /\ example_store !! out = None /\ example_store !! picked = None
    /\ h' !! out = Some (Store.OList [Store.RObj picked])
    /\ h' !! picked
       = Some (Store.ODict [(Store.r_name, Store.RStr (lit "orders"));
                            (Store.r_columns, Store.RObj 5%positive);
                            (Store.r_properties, Store.RObj 6%positive)]).
Proof.
  eexists _, _, _. split; [vm_compute; reflexivity|].
  repeat split; vm_compute; reflexivity.
Qed.

(** ** [run] on a request *)

(** The inputs of one invocation of [run]. *)
Record request : Type := {
  req_user_prompt : str;
  req_selected_models : list str;
  req_mdl : dict
}.

Section RunRequest.

Variable loads : str -> result value.

(** What remains of [run] once the generator has been called with [p]. *)
Definition resume (self : components) (p : value) : M dict :=
  g <~ lift (generator self p) ;;
  r <~ post_process loads g ;;
  mret [(k_post_process, VDict r)].

(** [run] on the request's inputs. *)
Definition run_request (self : components) (req : request) : M dict :=
  run loads self (req_user_prompt req) (req_selected_models req) (req_mdl req).

Lemma run_picked_models_raises (self : components) (req : request) (e : exn) :
  picked_models (req_mdl req) (req_selected_models req) = raise e ->
  run_request self req = ([LogInfo running], raise e).
Proof. unfold run_request, run. intros ->. reflexivity. Qed.

Lemma run_prompt_raises (self : components) (req : request)
    (picked : list value) (e : exn) :
  picked_models (req_mdl req) (req_selected_models req) = ok picked ->
  prompt picked (req_user_prompt req) (prompt_builder self) = raise e ->
  run_request self req = ([LogInfo running], raise e).
Proof.
  unfold run_request, run. intros -> Hp.
  unfold emit. rewrite mbind_events, mbind_ok, Hp. reflexivity.
Qed.

End RunRequest.

(** A pipeline whose generator names one model after its prompt. *)
Definition naming_pipeline : components :=
  {| prompt_builder := plain_builder; generator := naming_generator |}.

(** ** Invocations that share a pipeline instance

    The invocations of [run] on one instance are tasks of one event loop.
    A task runs until it suspends; [run] and the driver it awaits may
    suspend between any two stages, so a turn of the scheduler runs one
    stage.  The tasks share the store of objects (two invocations may be
    given the same descriptor object), the instance and the logger. *)

(** The configured components, as the tasks meet them: the prompt builder
    is handed a reference to the list that [picked_models] has built, in
    the shared store. *)
Record pipeline : Type := {
  shared_prompt_builder : Store.store -> Store.ref -> str -> result dict;
  shared_generator : value -> result dict
}.

(** The inputs of one invocation; [mdl] is a reference. *)
Record invocation : Type := {
  inv_user_prompt : str;
  inv_selected_models : list str;
  inv_mdl : Store.ref
}.

(** Where an invocation stands.  [c] is the content of
    [self._components] that the invocation took when it built the inputs
    of [execute]. *)
Inductive task : Type :=
| Ready (inv : invocation)
| Logged (inv : invocation) (c : pipeline)
| Picked (inv : invocation) (c : pipeline) (picked : Store.ref)
| Prompted (c : pipeline) (p : dict)
| Awaiting (c : pipeline) (p : value)
| Replied (g : dict)
| Done (r : result dict).

Record system : Type := {
  instance : pipeline;
  heap : Store.store;
  tasks : list task;
  trace : list event
}.

Section Scheduler.

Variable loads : str -> result value.

(** The last stage and the driver's answer. *)
Definition finish (g : dict) : M dict :=
  r <~ post_process loads g ;;
  mret [(k_post_process, VDict r)].

(** One turn of an invocation: the instance and the store afterwards, the
    events of the turn, and where the invocation stands then.
    - [Ready]: [logger.info], and the inputs of [execute] are built;
    - [Logged]: [picked_models], on the shared store;
    - [Picked]: [prompt];
    - [Prompted]: [generate] calls the generator and awaits its reply;
    - [Awaiting]: the reply, or the generator's exception, arrives;
    - [Replied]: [post_process], and the driver's answer.
    No stage assigns to an attribute of the instance, so it is handed on
    as it is; [picked_models] is the one stage that writes to the store. *)
Definition advance (self : pipeline) (h : Store.store) (t : task)
  : pipeline * Store.store * list event * task :=
  match t with
  | Ready inv => (self, h, [LogInfo running], Logged inv self)
  | Logged inv c =>
      match Store.picked_models (inv_mdl inv) (inv_selected_models inv) h with
      | (inl e, h') => (self, h', [], Done (raise e))
      | (inr picked, h') => (self, h', [], Picked inv c picked)
      end
  | Picked inv c picked =>
      match shared_prompt_builder c h picked (inv_user_prompt inv) with
      | inl e => (self, h, [], Done (raise e))
      | inr p => (self, h, [], Prompted c p)
      end
  | Prompted c p =>
      (self, h, [GeneratorRun (dict_get p k_prompt)],
       Awaiting c (dict_get p k_prompt))
  | Awaiting c p =>
      match shared_generator c p with
      | inl e => (self, h, [], Done (raise e))
      | inr g => (self, h, [], Replied g)
      end
  | Replied g => (self, h, events (finish g), Done (outcome (finish g)))
  | Done r => (self, h, [], Done r)
  end.

(** The scheduler gives invocation [i] a turn. *)
Definition turn (sys : system) (i : nat) : system :=
  match tasks sys !! i with
  | Some t =>
      let '(self, h, evs, t') := advance (instance sys) (heap sys) t in
      {| instance := self;
         heap := h;
         tasks := <[i := t']> (tasks sys);
         trace := trace sys ++ evs |}
  | None => sys
  end.

Definition exec (schedule : list nat) (sys : system) : system :=
  fold_left turn schedule sys.

Definition start (self : pipeline) (h : Store.store)
    (invs : list invocation) : system :=
  {| instance := self; heap := h; tasks := List.map Ready invs; trace := [] |}.

End Scheduler.

(** The prompt builder reads the list it is handed, and nothing else:
    its answer is [pb] of what the list stands for. *)
Definition renders (c : pipeline)
    (pb : list value -> str -> result dict) : Prop :=
  forall h r n vs user_prompt,
    reify n h r = Some (VList vs) ->
    shared_prompt_builder c h r user_prompt = pb vs user_prompt.

(** The components as [run] takes them. *)
Definition as_components (c : pipeline)
    (pb : list value -> str -> result dict) : components :=
  {| prompt_builder := pb; generator := shared_generator c |}.

Lemma picked_models_keeps (mdl : Store.ref) (selected_models : list str)
    (h : Store.store) :
  Store.preserved h (Store.picked_models mdl selected_models h).2.
Proof.
  unfold Store.picked_models. unfold Store.sbind at 1.
  destruct (Store.subscript mdl Store.r_models h) as [[e | models] h1] eqn:Hs;
    pose proof (Store.subscript_store mdl Store.r_models h) as Hh;
    rewrite Hs in Hh; simpl in Hh; subst h1; [apply Store.preserved_refl|].
  unfold Store.sbind at 1.
  destruct (Store.iterate models h) as [[e | items] h1] eqn:Hi;
    pose proof (Store.iterate_store models h) as Hh; rewrite Hi in Hh;
    simpl in Hh; subst h1; [apply Store.preserved_refl|].
  unfold Store.sbind at 1. unfold Store.alloc at 1.
  set (out := fresh (dom h)).
  assert (Hout : h !! out = None) by (apply not_elem_of_dom, is_fresh).
  assert (Hp : Store.preserved h (<[out := Store.OList []]> h)).
  { intros l o H. rewrite lookup_insert_ne; [exact H|].
    intros <-. congruence. }
  pose proof (Store.preserved_loop h out items selected_models
                (<[out := Store.OList []]> h) Hout Hp) as Hl.
  unfold Store.sbind, ok. cbn beta iota.
  destruct (Store.picked_models_loop out items selected_models
              (<[out := Store.OList []]> h)) as [[e | []] h']; exact Hl.
Qed.

Lemma preserved_trans (h1 h2 h3 : Store.store) :
  Store.preserved h1 h2 -> Store.preserved h2 h3 -> Store.preserved h1 h3.
Proof. intros H12 H23 l o H. apply H23, H12, H. Qed.

Section SchedulerFacts.

Variable loads : str -> result value.
Variable c : pipeline.
Variable pb : list value -> str -> result dict.
Hypothesis c_renders : renders c pb.

(** [run] on what the invocation's descriptor stands for. *)
Definition run_on (inv : invocation) (m : dict) : M dict :=
  run loads (as_components c pb) (inv_user_prompt inv)
    (inv_selected_models inv) m.

Definition request_of (inv : invocation) (m : dict) : request :=
  {| req_user_prompt := inv_user_prompt inv;
     req_selected_models := inv_selected_models inv;
     req_mdl := m |}.

(** The states that an invocation goes through when it runs alone, on a
    descriptor that stands for [m]. *)
Definition on_track (h : Store.store) (im : invocation * dict) (t : task)
  : Prop :=
  let inv := fst im in
  let m := snd im in
  t = Ready inv
  \/ t = Logged inv c
  \/ (exists picked vs n,
         t = Picked inv c picked
         /\ picked_models m (inv_selected_models inv) = ok vs
         /\ reify n h picked = Some (VList vs))
  \/ (exists vs p,
         picked_models m (inv_selected_models inv) = ok vs
         /\ pb vs (inv_user_prompt inv) = ok p
         /\ (t = Prompted c p
             \/ t = Awaiting c (dict_get p k_prompt)
             \/ exists g, shared_generator c (dict_get p k_prompt) = ok g
                          /\ t = Replied g))
  \/ t = Done (outcome (run_on inv m)).

Lemma on_track_preserved (h h' : Store.store) (im : invocation * dict)
    (t : task) :
  Store.preserved h h' -> on_track h im t -> on_track h' im t.
Proof.
  intros Hp [H | [H | [(picked & vs & n & Ht & Hpick & Hr) | [H | H]]]].
  - now left.
  - right. now left.
  - right. right. left. exists picked, vs, n.
    repeat split; try assumption. exact (reify_store n h h' _ _ Hp Hr).
  - right. right. right. now left.
  - right. right. right. now right.
Qed.

Lemma run_on_picked_raises (inv : invocation) (m : dict) (e : exn) :
  picked_models m (inv_selected_models inv) = raise e ->
  outcome (run_on inv m) = raise e.
Proof.
  intros H. unfold run_on.
  change (run loads (as_components c pb) (inv_user_prompt inv)
            (inv_selected_models inv) m)
    with (run_request loads (as_components c pb) (request_of inv m)).
  now rewrite (run_picked_models_raises loads (as_components c pb)
                 (request_of inv m) e H).
Qed.

Lemma run_on_prompt_raises (inv : invocation) (m : dict) (vs : list value)
    (e : exn) :
  picked_models m (inv_selected_models inv) = ok vs ->
  pb vs (inv_user_prompt inv) = raise e ->
  outcome (run_on inv m) = raise e.
Proof.
  intros H1 H2. unfold run_on.
  change (run loads (as_components c pb) (inv_user_prompt inv)
            (inv_selected_models inv) m)
    with (run_request loads (as_components c pb) (request_of inv m)).
  now rewrite (run_prompt_raises loads (as_components c pb)
                 (request_of inv m) vs e H1 H2).
Qed.

Lemma run_on_resume (inv : invocation) (m : dict) (vs : list value)
    (p : dict) :
  picked_models m (inv_selected_models inv) = ok vs ->
  pb vs (inv_user_prompt inv) = ok p ->
  outcome (run_on inv m)
  = outcome (resume loads (as_components c pb) (dict_get p k_prompt)).
Proof.
  intros H1 H2. unfold run_on.
  now rewrite (run_stages loads (as_components c pb) _ _ _ _ _ H1 H2).
Qed.

Lemma resume_raise (p : value) (e : exn) :
  shared_generator c p = raise e ->
  outcome (resume loads (as_components c pb) p) = raise e.
Proof.
  intros H. unfold resume. cbn [as_components generator]. now rewrite H.
Qed.

Lemma resume_finish (p : value) (g : dict) :
  shared_generator c p = ok g ->
  outcome (resume loads (as_components c pb) p) = outcome (finish loads g).
Proof.
  intros H. unfold resume, finish. cbn [as_components generator].
  now rewrite H, mbind_ok.
Qed.

(** A turn keeps an invocation on its track, whatever store the other
    invocations have left, as long as the objects of the start are in
    it. *)
Lemma advance_on_track (h0 h : Store.store) (im : invocation * dict)
    (t : task) :
  (exists n, reify n h0 (inv_mdl (fst im)) = Some (VDict (snd im))) ->
  Store.preserved h0 h ->
  on_track h im t ->
  let '(self, h', evs, t') := advance loads c h t in
  self = c /\ Store.preserved h h' /\ on_track h' im t'.
Proof.
  destruct im as [inv m]. intros (n0 & Hm) Hp0 Hon.
  unfold on_track in Hon. cbn [fst snd] in *.
  destruct Hon as [-> | [-> | [(picked & vs & n & -> & Hpick & Hr)
                    | [(vs & p & Hpick & Hprompt & Ht) | ->]]]];
    cbn [advance].
  - split; [reflexivity|]. split; [apply Store.preserved_refl|].
    right. now left.
  - pose proof (picked_models_keeps (inv_mdl inv) (inv_selected_models inv) h)
      as Hk.
    pose proof (picked_models_simulates n0 h (inv_mdl inv) m
                  (inv_selected_models inv)
                  (reify_store n0 h0 h _ _ Hp0 Hm)) as Hsim.
    destruct (picked_models m (inv_selected_models inv)) as [e | vs] eqn:Hpick.
    + destruct Hsim as (h' & Hs). rewrite Hs in Hk |- *. simpl in Hk.
      split; [reflexivity|]. split; [exact Hk|].
      right. right. right. right. cbn [fst snd].
      now rewrite (run_on_picked_raises inv m e Hpick).
    + destruct Hsim as (out & h' & Hs & _ & Hr). rewrite Hs in Hk |- *.
      simpl in Hk. split; [reflexivity|]. split; [exact Hk|].
      right. right. left. exists (Store.RObj out), vs, (S (S n0)).
      cbn [fst snd]. auto.
  - rewrite (c_renders h picked n vs (inv_user_prompt inv) Hr).
    destruct (pb vs (inv_user_prompt inv)) as [e | p] eqn:Hprompt.
    + split; [reflexivity|]. split; [apply Store.preserved_refl|].
      right. right. right. right. cbn [fst snd].
      now rewrite (run_on_prompt_raises inv m vs e Hpick Hprompt).
    + split; [reflexivity|]. split; [apply Store.preserved_refl|].
      right. right. right. left. exists vs, p. cbn [fst snd]. auto.
  - destruct Ht as [-> | [-> | (g & Hg & ->)]]; cbn [advance].
    + split; [reflexivity|]. split; [apply Store.preserved_refl|].
      right. right. right. left. exists vs, p. cbn [fst snd]. auto.
    + destruct (shared_generator c (dict_get p k_prompt)) as [e | g] eqn:Hg.
      * split; [reflexivity|]. split; [apply Store.preserved_refl|].
        right. right. right. right. cbn [fst snd].
        rewrite (run_on_resume inv m vs p Hpick Hprompt).
        now rewrite (resume_raise _ e Hg).
      * split; [reflexivity|]. split; [apply Store.preserved_refl|].
        right. right. right. left. exists vs, p. cbn [fst snd].
        repeat split; try assumption. right. right. now exists g.
    + split; [reflexivity|]. split; [apply Store.preserved_refl|].
      right. right. right. right. cbn [fst snd].
      rewrite (run_on_resume inv m vs p Hpick Hprompt).
      now rewrite (resume_finish _ g Hg).
  - split; [reflexivity|]. split; [apply Store.preserved_refl|].
    right. right. right. now right.
Qed.

(** What every schedule keeps true. *)
Definition consistent (h0 : Store.store) (ims : list (invocation * dict))
    (sys : system) : Prop :=
  instance sys = c /\ Store.preserved h0 (heap sys)
  /\ Forall2 (on_track (heap sys)) ims (tasks sys).

Definition readable (h0 : Store.store) (im : invocation * dict) : Prop :=
  exists n, reify n h0 (inv_mdl (fst im)) = Some (VDict (snd im)).

Lemma turn_consistent (h0 : Store.store) (ims : list (invocation * dict))
    (sys : system) (i : nat) :
  Forall (readable h0) ims ->
  consistent h0 ims sys -> consistent h0 ims (turn loads sys i).
Proof.
  intros Hread (Hi & Hp & Hf). unfold turn.
  destruct (tasks sys !! i) as [t|] eqn:Ht; [|now repeat split].
  destruct (Forall2_lookup_r _ _ _ _ _ Hf Ht) as (im & Him & Hon).
  assert (Hr : readable h0 im).
  { rewrite List.Forall_forall in Hread. apply Hread.
    apply list_elem_of_In. eapply list_elem_of_lookup_2. exact Him. }
  pose proof (advance_on_track h0 (heap sys) im t Hr Hp Hon) as Ha.
  rewrite Hi.
  destruct (advance loads c (heap sys) t) as [[[self' h'] evs] t'].
  destruct Ha as (-> & Hk & Hon'). cbn [instance heap tasks].
  split; [reflexivity|]. split; [exact (preserved_trans _ _ _ Hp Hk)|].
  rewrite <- (list_insert_id ims i im Him).
  apply Forall2_insert; [|exact Hon'].
  eapply Forall2_impl; [exact Hf|].
  intros im' t'' H. exact (on_track_preserved _ _ _ _ Hk H).
Qed.

Lemma exec_consistent (h0 : Store.store) (ims : list (invocation * dict))
    (schedule : list nat) (sys : system) :
  Forall (readable h0) ims ->
  consistent h0 ims sys -> consistent h0 ims (exec loads schedule sys).
Proof.
  intros Hread. revert sys.
  induction schedule as [|i rest IH]; intros sys H; [exact H|].
  change (exec loads (i :: rest) sys) with (exec loads rest (turn loads sys i)).
  apply IH. now apply turn_consistent.
Qed.

Lemma start_consistent (h0 : Store.store) (ims : list (invocation * dict)) :
  consistent h0 ims (start c h0 (List.map fst ims)).
Proof.
  split; [reflexivity|]. split; [apply Store.preserved_refl|]. simpl.
  induction ims as [|im ims IH]; simpl; constructor; [now left | exact IH].
Qed.

(** How far an invocation has come. *)
Definition stage (t : task) : nat :=
  match t with
  | Ready _ => 0
  | Logged _ _ => 1
  | Picked _ _ _ => 2
  | Prompted _ _ => 3
  | Awaiting _ _ => 4
  | Replied _ => 5
  | Done _ => 6
  end.

Lemma advance_stage (self : pipeline) (h : Store.store) (t : task) :
  (Nat.min 6 (S (stage t)) <= stage (advance loads self h t).2)%nat.
Proof.
  destruct t as [inv | inv c' | inv c' picked | c' p | c' p | g | r];
    cbn [advance stage].
  - simpl. lia.
  - destruct (Store.picked_models _ _ _) as [[e | picked] h']; simpl; lia.
  - destruct (shared_prompt_builder _ _ _ _); simpl; lia.
  - simpl. lia.
  - destruct (shared_generator _ _); simpl; lia.
  - simpl. lia.
  - simpl. lia.
Qed.

Lemma exec_stage (schedule : list nat) (sys : system) (i : nat) (t : task) :
  tasks sys !! i = Some t ->
  exists t', tasks (exec loads schedule sys) !! i = Some t'
             /\ (Nat.min 6 (stage t + count_occ Nat.eq_dec schedule i)
                 <= stage t')%nat.
Proof.
  revert sys t. induction schedule as [|j rest IH]; intros sys t Ht.
  - exists t. split; [exact Ht|]. cbn [count_occ]. lia.
  - change (exec loads (j :: rest) sys)
      with (exec loads rest (turn loads sys j)).
    cbn [count_occ]. destruct (Nat.eq_dec j i) as [-> | Hne].
    + pose proof (advance_stage (instance sys) (heap sys) t) as Hs.
      assert (Hturn : tasks (turn loads sys i) !! i
                      = Some (advance loads (instance sys) (heap sys) t).2).
      { unfold turn. rewrite Ht.
        destruct (advance loads (instance sys) (heap sys) t)
          as [[[self' h'] evs] t']. simpl.
        apply list_lookup_insert_eq. now apply lookup_lt_Some in Ht. }
      destruct (IH _ _ Hturn) as (t' & Ht' & Hle).
      exists t'. split; [exact Ht'|]. lia.
    + assert (Hturn : tasks (turn loads sys j) !! i = Some t).
      { unfold turn. destruct (tasks sys !! j) as [tj|]; [|exact Ht].
        destruct (advance loads (instance sys) (heap sys) tj)
          as [[[self' h'] evs] t']. simpl.
        now rewrite list_lookup_insert_ne. }
      exact (IH _ _ Hturn).
Qed.

End SchedulerFacts.

(** C7. Invocations of [run] that share one configured instance, and
    possibly the descriptor objects they are given, do not contaminate one
    another.  Let the components be read-only: the prompt builder reads
    nothing but the list it is handed, and the generator's reply is a
    function of its prompt.  Let every invocation's [mdl] stand for a
    mapping in the store of the start.  Then, whatever the order in which
    the scheduler gives the invocations their turns, one stage at a time:
    the instance is the same afterwards, every object of the start is in
    the store unchanged, every invocation that has finished holds the
    outcome of [run] on its own inputs (its prompt, its selection, what its
    [mdl] stood for), and six turns finish an invocation. *)
Theorem run_invocations_independent
    (loads : str -> result value) (c : pipeline)
    (pb : list value -> str -> result dict) (h0 : Store.store)
    (ims : list (invocation * dict)) (schedule : list nat) :
  renders c pb ->
  Forall (readable h0) ims ->
  let final := exec loads schedule (start c h0 (List.map fst ims)) in
  instance final = c
  /\ Store.preserved h0 (heap final)
  /\ (forall i inv m r,
         ims !! i = Some (inv, m) -> tasks final !! i = Some (Done r) ->
         r = outcome (run loads (as_components c pb) (inv_user_prompt inv)
                        (inv_selected_models inv) m))
  /\ (forall i inv m,
         ims !! i = Some (inv, m) ->
         (6 <= count_occ Nat.eq_dec schedule i)%nat ->
         tasks final !! i
         = Some (Done (outcome (run loads (as_components c pb)
                                  (inv_user_prompt inv)
                                  (inv_selected_models inv) m)))).
Proof.
  intros Hren Hread final.
  destruct (exec_consistent loads c pb Hren h0 ims schedule _ Hread
              (start_consistent loads c pb h0 ims)) as (Hi & Hp & Hf).
  fold final in Hi, Hp, Hf.
  assert (Hdone : forall i inv m r,
             ims !! i = Some (inv, m) -> tasks final !! i = Some (Done r) ->
             r = outcome (run_on loads c pb inv m)).
  { intros i inv m r Him Ht.
    destruct (Forall2_lookup_l _ _ _ _ _ Hf Him) as (t & Ht' & Hon).
    rewrite Ht in Ht'. injection Ht' as <-.
    destruct Hon as [H | [H | [(picked & vs & n & H & _) | [H | H]]]];
      try discriminate H.
    - destruct H as (vs & p & _ & _ & [H | [H | (g & _ & H)]]);
        discriminate H.
    - now injection H. }
  split; [exact Hi|]. split; [exact Hp|]. split; [exact Hdone|].
  intros i inv m Him Hcount.
  assert (Hstart : tasks (start c h0 (List.map fst ims)) !! i
                   = Some (Ready inv)).
  { simpl. rewrite !list_lookup_fmap, Him. reflexivity. }
  destruct (exec_stage loads schedule _ i _ Hstart) as (t & Ht & Hle).
  fold final in Ht.
  destruct t as [inv' | inv' c' | inv' c' picked | c' p | c' p | g | r];
    cbn [stage] in Hle; try lia.
  rewrite Ht. f_equal. f_equal. exact (Hdone i inv m r Him Ht).
Qed.

(** A prompt builder that reads the store: its prompt is the user's text
    followed by one star for each picked record. *)
Definition starred (user_prompt : str) (n : nat) : result dict :=
  ok [(k_prompt, VStr (user_prompt ++ repeat 42%N n))].

Definition counting_pipeline : pipeline :=
  {| shared_prompt_builder := fun h r user_prompt =>
       match r with
       | Store.RObj l =>
           match h !! l with
           | Some (Store.OList items) => starred user_prompt (length items)
           | _ => raise TypeError
           end
       | _ => raise TypeError
       end;
     shared_generator := naming_generator |}.

Definition counting_builder (picked : list value) (user_prompt : str)
  : result dict :=
  starred user_prompt (length picked).

Lemma read_list_length (f : Store.ref -> option value)
    (items : list Store.ref) (vs : list value) :
  read_list f items = Some vs -> length vs = length items.
Proof.
  revert vs. induction items as [|x xs IH]; intros vs; simpl.
  - now intros [= <-].
  - destruct (f x); [|discriminate].
    destruct (read_list f xs) as [vs'|]; [|discriminate].
    intros [= <-]. simpl. now rewrite (IH vs' eq_refl).
Qed.

Lemma counting_pipeline_renders : renders counting_pipeline counting_builder.
Proof.
  intros h r n vs user_prompt Hr. unfold counting_builder. simpl.
  destruct n as [|n], r as [| | | | |l]; simpl in Hr; try discriminate Hr.
  destruct (h !! l) as [[items | d]|]; simpl in Hr; try discriminate Hr.
  - destruct (read_list (reify n h) items) as [vs'|] eqn:E;
      [|discriminate Hr].
    injection Hr as <-. now rewrite (read_list_length _ _ _ E).
  - destruct (read_entries (reify n h) d); discriminate Hr.
Qed.

(** What the descriptor of [example_store] stands for. *)
Definition shared_mdl : dict :=
  Eval vm_compute in
    match reify 4 example_store (Store.RObj 1%positive) with
    | Some (VDict m) => m
    | _ => []
    end.

(** Two invocations that are given the same descriptor object. *)
Definition orders_invocation : invocation :=
  {| inv_user_prompt := lit "orders";
     inv_selected_models := [lit "orders"];
     inv_mdl := Store.RObj 1%positive |}.

Definition products_invocation : invocation :=
  {| inv_user_prompt := lit "products";
     inv_selected_models := [lit "products"; lit "orders"];
     inv_mdl := Store.RObj 1%positive |}.

Definition alternating : list nat :=
  [0; 1; 0; 1; 0; 1; 0; 1; 0; 1; 0; 1]%nat.

Lemma run_invocations_independent_witness :
  let ims := [(orders_invocation, shared_mdl);
              (products_invocation, shared_mdl)] in
  let final := exec json_loads alternating
                 (start counting_pipeline example_store (List.map fst ims)) in
  renders counting_pipeline counting_builder
  /\ Forall (readable example_store) ims
  /\ trace final
     = [LogInfo running; LogInfo running;
        GeneratorRun (VStr (lit "orders*"));
        GeneratorRun (VStr (lit "products**"))]
  /\ tasks final
     = [Done (ok [(k_post_process,
                   VDict [(VStr (lit "orders*"),
                           VDict [(k_name, VStr (lit "orders*"))])])]);
        Done (ok [(k_post_process,
                   VDict [(VStr (lit "products**"),
                           VDict [(k_name, VStr (lit "products**"))])])])]
  /\ tasks final !! 0%nat
     = Some (Done (outcome (run json_loads
                              (as_components counting_pipeline counting_builder)
                              (lit "orders") [lit "orders"] shared_mdl)))
  /\ tasks final !! 1%nat
     = Some (Done (outcome (run json_loads
                              (as_components counting_pipeline counting_builder)
                              (lit "products") [lit "products"; lit "orders"]
                              shared_mdl))).
Proof.
  intros ims final.
  assert (Hread : Forall (readable example_store) ims).
  { repeat constructor; exists 4%nat; vm_compute; reflexivity. }
  destruct (run_invocations_independent json_loads counting_pipeline
              counting_builder example_store ims alternating
              counting_pipeline_renders Hread) as (_ & _ & _ & Hdone).
  split; [exact counting_pipeline_renders|]. split; [exact Hread|].
  split; [vm_compute; reflexivity|]. split; [vm_compute; reflexivity|].
  split.
  - apply (Hdone 0%nat orders_invocation shared_mdl);
      [reflexivity | vm_compute; lia].
  - apply (Hdone 1%nat products_invocation shared_mdl);
      [reflexivity | vm_compute; lia].
Defined.

(** ** More on the whitespace normalization (lines 47-51) *)

Lemma split_from_replace (word text : str) :
  split_from word (replace LF SP text) = split_from word text.
Proof.
  revert word. induction text as [|c rest IH]; intros word; [reflexivity|].
  cbn [replace List.map split_from]. fold (replace LF SP rest).
  destruct (N.eqb c LF) eqn:E.
  - apply N.eqb_eq in E. subst c.
    change (isspace SP) with true. change (isspace LF) with true.
    cbn iota. now rewrite IH.
  - destruct (isspace c); now rewrite IH.
Qed.

Lemma normalize_text_join_split (text : str) :
  normalize_text text = join [SP] (split text).
Proof. unfold normalize_text, split. now rewrite split_from_replace. Qed.

(** X1. The normalization keeps the words of the text and their order: it
    is the words of the text joined by single spaces, so the [replace] of
    line 47 adds nothing to what [split] does, and splitting the normalized
    text gives the words of the original. *)
Theorem normalize_text_keeps_words (text : str) :
  normalize_text text = join [SP] (split text)
  /\ split (normalize_text text) = split text.
Proof.
  pose proof (normalize_text_join_split text) as H.
  split; [exact H|]. rewrite H. apply split_join. apply split_words.
Qed.

(** X2. The strings the normalization leaves unchanged are exactly the
    sequences of non-empty, whitespace-free words separated by one space
    each. *)
Theorem normalize_text_fixed_points (text : str) :
  normalize_text text = text
  <-> exists words, Forall is_word words /\ text = join [SP] words.
Proof.
  split.
  - intros H. exists (split (replace LF SP text)). split.
    + apply split_words.
    + symmetry. exact H.
  - intros (words & Hw & ->). unfold normalize_text.
    rewrite (replace_id LF SP (join [SP] words)) by now apply join_no_newline.
    now rewrite split_join.
Qed.

Lemma split_from_nil (word text : str) :
  split_from word text = []
  <-> word = [] /\ Forall (fun c => isspace c = true) text.
Proof.
  revert word. induction text as [|c rest IH]; intros word; simpl.
  - destruct word; simpl; split.
    + intros _. split; [reflexivity | constructor].
    + reflexivity.
    + discriminate.
    + intros [H _]. discriminate H.
  - destruct (isspace c) eqn:Hc.
    + destruct word as [|a word]; simpl.
      * rewrite IH. split.
        -- intros [_ H]. split; [reflexivity|]. now constructor.
        -- intros [_ H]. inversion H; subst. now split.
      * split; [discriminate|]. intros [H _]. discriminate H.
    + rewrite IH. split.
      * intros [H _]. destruct word; discriminate H.
      * intros [_ H]. inversion H; subst. congruence.
Qed.

Lemma join_words_nil (words : list str) :
  Forall is_word words -> join [SP] words = [] -> words = [].
Proof.
  intros Hw. destruct words as [|w ws]; [reflexivity|].
  inversion Hw as [|? ? [Hne _] _]; subst.
  destruct (join_cons_word w ws) as [rest ->].
  destruct w; [contradiction | discriminate].
Qed.

(** X3. A text normalizes to the empty string exactly when all of its
    characters are whitespace (the empty text among them); the decoder is
    then given the empty string. *)
Theorem normalize_text_blank (text : str) :
  normalize_text text = []
  <-> Forall (fun c => isspace c = true) text.
Proof.
  rewrite normalize_text_join_split. unfold split.
  split.
  - intros H. apply join_words_nil in H; [|apply split_words].
    now apply split_from_nil in H as [_ H].
  - intros H.
    assert (Hs : split_from [] text = []) by (apply split_from_nil; auto).
    now rewrite Hs.
Qed.

Lemma join_cons_length (w : str) (ws : list str) :
  (length (join [SP] (w :: ws)) <= length w + 1 + length (join [SP] ws))%nat.
Proof.
  destruct ws as [|w' ws']; cbn [join].
  - simpl. lia.
  - rewrite !length_app. simpl. lia.
Qed.

Lemma join_split_from_length (word text : str) :
  (length (join [SP] (split_from word text))
   <= length word + length text)%nat.
Proof.
  revert word. induction text as [|c rest IH]; intros word;
    cbn [split_from].
  - destruct word; simpl; lia.
  - destruct (isspace c).
    + specialize (IH []). destruct word as [|a word]; cbn [flush app].
      * simpl in *. lia.
      * pose proof (join_cons_length (a :: word) (split_from [] rest)).
        simpl in *. lia.
    + specialize (IH (word ++ [c])). rewrite length_app in IH.
      simpl in *. lia.
Qed.

(** X4. The normalization never lengthens the text. *)
Theorem normalize_text_length (text : str) :
  (length (normalize_text text) <= length text)%nat.
Proof.
  rewrite normalize_text_join_split.
  exact (join_split_from_length [] text).
Qed.

(** ** More on [post_process] (lines 45-60) *)

(** X5. The [strip] of line 51 removes nothing: for every decoder and every
    text, [normalize] hands the decoder exactly the normalized text. *)
Theorem normalize_strip_redundant (loads : str -> result value) (text : str) :
  normalize loads (VStr text)
  = match loads (normalize_text text) with
    | inr text_dict => mret text_dict
    | inl (JSONDecodeError e) =>
        ([LogError (error_decoding e)], ok (VDict []))
    | inl e => mraise e
    end.
Proof.
  unfold normalize. rewrite strip_normalize_text.
  destruct (loads (normalize_text text)) as [[]|]; reflexivity.
Qed.

(** A truncated reply. *)
Definition truncated_reply : str := quoted "{'models':[{'name':'orders'".

(** X6. For every decoder: when the first candidate is a string whose
    normalized text the decoder rejects with [JSONDecodeError],
    [post_process] logs one error record carrying the decoder's message,
    and raises [KeyError] for the key ["models"]; it does not answer the
    empty mapping. *)
Theorem post_process_undecodable_raises
    (loads : str -> result value) (generate : dict) (text e : str) :
  first_reply generate = ok (VStr text) ->
  loads (normalize_text text) = raise (JSONDecodeError e) ->
  post_process loads generate
  = ([LogError (error_decoding e)], raise (KeyError k_models)).
Proof.
  intros Hr Hd. apply (post_process_decode_error loads _ text e Hr).
  now rewrite strip_normalize_text.
Qed.

Lemma post_process_undecodable_raises_witness :
  first_reply (envelope [VStr truncated_reply; VStr orders_reply])
    = ok (VStr truncated_reply)
  /\ json_loads (normalize_text truncated_reply)
     = raise (JSONDecodeError Json.invalid)
  /\ post_process json_loads (envelope [VStr truncated_reply; VStr orders_reply])
     = ([LogError (error_decoding Json.invalid)], raise (KeyError k_models)).
Proof.
  assert (Hr : first_reply (envelope [VStr truncated_reply; VStr orders_reply])
               = ok (VStr truncated_reply)) by reflexivity.
  assert (Hd : json_loads (normalize_text truncated_reply)
               = raise (JSONDecodeError Json.invalid))
    by (vm_compute; reflexivity).
  split; [exact Hr|]. split; [exact Hd|].
  exact (post_process_undecodable_raises json_loads _ _ _ Hr Hd).
Defined.

(** X7. When the first candidate is not a string, [post_process] raises
    [AttributeError] (the candidate has no [replace]); the decoder is not
    consulted and nothing is logged. *)
Theorem post_process_reply_not_str_raises
    (loads : str -> result value) (generate : dict) (reply : value) :
  first_reply generate = ok reply ->
  (forall s, reply <> VStr s) ->
  post_process loads generate = ([], raise AttributeError).
Proof.
  intros Hr Hs. rewrite (post_process_reply loads _ _ Hr).
  destruct reply; try reflexivity. now destruct (Hs s).
Qed.

Lemma post_process_reply_not_str_raises_witness :
  first_reply (envelope [VNone]) = ok VNone
  /\ (forall s, VNone <> VStr s)
  /\ post_process json_loads (envelope [VNone]) = ([], raise AttributeError).
Proof.
  assert (Hr : first_reply (envelope [VNone]) = ok VNone) by reflexivity.
  assert (Hs : forall s, VNone <> VStr s) by discriminate.
  split; [exact Hr|]. split; [exact Hs|].
  exact (post_process_reply_not_str_raises json_loads _ _ Hr Hs).
Defined.

(** X8. Whatever the envelope and the decoder, [post_process] logs nothing,
    or it logs exactly one error record; in the latter case the first
    candidate was a string the decoder rejected and the call raises
    [KeyError] for ["models"].  A mapping is never answered after an error
    was logged. *)
Theorem post_process_logs_only_decode_errors
    (loads : str -> result value) (generate : dict) :
  events (post_process loads generate) = []
  \/ exists text e,
       first_reply generate = ok (VStr text)
       /\ loads (strip (normalize_text text)) = raise (JSONDecodeError e)
       /\ post_process loads generate
          = ([LogError (error_decoding e)], raise (KeyError k_models)).
Proof.
  destruct (first_reply generate) as [x | reply] eqn:Hr.
  - left. unfold post_process. fold (first_reply generate). now rewrite Hr.
  - rewrite (post_process_reply loads _ _ Hr).
    destruct reply as [| | | |text| |]; try (left; reflexivity).
    destruct (loads (strip (normalize_text text))) as [x | v] eqn:Hd.
    + destruct x as [| | | |e|]; try (left; unfold normalize; now rewrite Hd).
      right. exists text, e. repeat split; try assumption.
      unfold normalize. now rewrite Hd.
    + left. unfold normalize. now rewrite Hd.
Qed.

(** No two keys of a mapping are equal: an earlier key never equals a
    later one. *)
Definition distinct_keys (d : dict) : Prop :=
  ForallOrdPairs (fun a b => key_eqb (fst a) (fst b) = false) d.

(** An entry that the comprehension has filed: a hashable key, and a value
    whose ["name"] is (equal to) the key. *)
Definition filed (entry : value * value) : Prop :=
  hashable (fst entry) = true
  /\ exists name, subscript (snd entry) k_name = ok name
                  /\ (fst entry = name \/ key_eqb (fst entry) name = true).

Lemma dict_store_distinct (d : dict) (k v : value) :
  distinct_keys d -> distinct_keys (dict_store d k v).
Proof.
  induction 1 as [|[k' v'] rest Hk Hrest IH]; simpl.
  - repeat constructor.
  - destruct (key_eqb k' k) eqn:E.
    + constructor; assumption.
    + constructor; [|exact IH].
      apply List.Forall_forall. intros [k0 v0] Hin. simpl.
      assert (Hin' : In k0 (keys (dict_store rest k v))).
      { unfold keys. apply in_map_iff. now exists (k0, v0). }
      apply keys_dict_store in Hin' as [Hin' | ->]; [|exact E].
      unfold keys in Hin'. apply in_map_iff in Hin' as ([k1 v1] & <- & Hin1).
      rewrite List.Forall_forall in Hk. exact (Hk _ Hin1).
Qed.

Lemma dict_store_filed (d : dict) (k v : value) :
  hashable k = true -> subscript v k_name = ok k ->
  Forall filed d -> Forall filed (dict_store d k v).
Proof.
  intros Hh Hs. induction 1 as [|[k' v'] rest Hf Hrest IH]; simpl.
  - constructor; [|constructor]. split; [exact Hh|]. exists k. auto.
  - destruct (key_eqb k' k) eqn:E.
    + constructor; [|exact Hrest]. destruct Hf as [Hh' _].
      split; [exact Hh'|]. exists k. auto.
    + constructor; assumption.
Qed.

Lemma index_by_name_invariant (models : list value) (acc r : dict) :
  index_by_name models acc = ok r ->
  distinct_keys acc /\ Forall filed acc ->
  distinct_keys r /\ Forall filed r.
Proof.
  revert acc. induction models as [|model rest IH]; intros acc; simpl.
  - now intros [= <-].
  - destruct (subscript model k_name) as [e | name] eqn:Hs; [discriminate|].
    simpl. unfold dict_setitem.
    destruct (hashable name) eqn:Hh; [|discriminate]. simpl.
    intros Hr [Hd Hf]. apply (IH _ Hr). split.
    + now apply dict_store_distinct.
    + now apply dict_store_filed.
Qed.

Lemma post_process_ok_index (loads : str -> result value) (generate r : dict) :
  outcome (post_process loads generate) = ok r ->
  exists items, index_by_name items [] = ok r.
Proof.
  destruct (first_reply generate) as [x | reply] eqn:Hr.
  - unfold post_process. fold (first_reply generate). rewrite Hr.
    discriminate.
  - rewrite (post_process_reply loads _ _ Hr).
    destruct reply as [| | | |text| |]; try discriminate.
    unfold normalize.
    destruct (loads (strip (normalize_text text))) as [x | v].
    + destruct x; discriminate.
    + simpl. destruct (subscript v k_models) as [e | models]; [discriminate|].
      simpl. destruct (iterate models) as [e | items]; [discriminate|].
      simpl. intros H. now exists items.
Qed.

(** X9. Whenever [post_process] answers a mapping, for any envelope and
    decoder: no two of its keys are equal, every key is hashable, and
    every value is a record filed under its own ["name"]. *)
Theorem post_process_mapping_invariant
    (loads : str -> result value) (generate r : dict) :
  outcome (post_process loads generate) = ok r ->
  distinct_keys r /\ Forall filed r.
Proof.
  intros H. destruct (post_process_ok_index loads _ _ H) as (items & Hi).
  apply (index_by_name_invariant items [] r Hi).
  split; constructor.
Qed.

Lemma post_process_mapping_invariant_witness :
  outcome (post_process json_loads (envelope [VStr orders_reply]))
    = ok orders_mapping
  /\ distinct_keys orders_mapping /\ Forall filed orders_mapping.
Proof.
  assert (H : outcome (post_process json_loads (envelope [VStr orders_reply]))
              = ok orders_mapping) by (vm_compute; reflexivity).
  split; [exact H|].
  exact (post_process_mapping_invariant json_loads _ _ H).
Defined.

(** X21. Only the words of the first candidate matter to [post_process]:
    two candidates that split into the same words (they differ in the
    kind and amount of whitespace between them, newlines included) give
    the same outcome and the same log, for every decoder. *)
Theorem post_process_layout_insensitive
    (loads : str -> result value) (g1 g2 : dict) (t1 t2 : str) :
  first_reply g1 = ok (VStr t1) ->
  first_reply g2 = ok (VStr t2) ->
  split t1 = split t2 ->
  post_process loads g1 = post_process loads g2.
Proof.
  intros H1 H2 Hw.
  rewrite (post_process_reply loads g1 _ H1).
  rewrite (post_process_reply loads g2 _ H2).
  unfold normalize.
  now rewrite (normalize_text_join_split t1), (normalize_text_join_split t2),
    Hw.
Qed.

(** The same document, compact and laid out over several lines. *)
Definition compact_reply : str := quoted "{'models': [{'name': 'orders'}]}".

Definition laid_out_reply : str :=
  quoted "{'models':
    [{'name':
        'orders'}]}
".

Lemma post_process_layout_insensitive_witness :
  first_reply (envelope [VStr compact_reply]) = ok (VStr compact_reply)
  /\ first_reply (envelope [VStr laid_out_reply]) = ok (VStr laid_out_reply)
  /\ split compact_reply = split laid_out_reply
  /\ post_process json_loads (envelope [VStr compact_reply])
     = post_process json_loads (envelope [VStr laid_out_reply]).
Proof.
  assert (H1 : first_reply (envelope [VStr compact_reply])
               = ok (VStr compact_reply)) by reflexivity.
  assert (H2 : first_reply (envelope [VStr laid_out_reply])
               = ok (VStr laid_out_reply)) by reflexivity.
  assert (Hw : split compact_reply = split laid_out_reply)
    by (vm_compute; reflexivity).
  repeat (split; [assumption|]).
  exact (post_process_layout_insensitive json_loads _ _ _ _ H1 H2 Hw).
Defined.

(** ** More on [picked_models] (lines 20-30) *)

(** A model the comprehension can handle under a selection: a mapping with
    a name, and with columns and properties when its name is selected. *)
Definition usable (selected_models : list str) (model : value) : Prop :=
  exists e,
    model = VDict e /\ dict_lookup e k_name <> None
    /\ (selected selected_models model = true ->
        dict_lookup e k_columns <> None
        /\ dict_lookup e k_properties <> None).

Lemma picked_models_loop_usable (selected_models : list str)
    (models : list value) :
  Forall (usable selected_models) models ->
  picked_models_loop models selected_models
  = ok (List.map simplified
          (List.filter (selected selected_models) models)).
Proof.
  induction 1 as [|model rest Hm _ IH]; [reflexivity|].
  destruct Hm as (e & -> & Hn & Hsel).
  destruct (dict_lookup e k_name) as [n|] eqn:En; [|contradiction].
  assert (Hsub : subscript (VDict e) k_name = ok n)
    by (simpl; now rewrite En).
  assert (Hq : selected selected_models (VDict e) = str_in n selected_models)
    by (unfold selected, name_of, dict_get; now rewrite En).
  cbn [picked_models_loop List.filter]. rewrite Hsub, Hq. simpl rbind.
  destruct (str_in n selected_models) eqn:Hs; [|exact IH].
  destruct (Hsel Hq) as [Hc Hp].
  destruct (dict_lookup e k_columns) as [c|] eqn:Ec; [|contradiction].
  destruct (dict_lookup e k_properties) as [p|] eqn:Ep; [|contradiction].
  assert (Hent : entity (VDict e)) by (exists e, n, c, p; auto).
  destruct (entity_subscripts _ Hent) as [_ Hx].
  rewrite Hx, IH. reflexivity.
Qed.

Lemma picked_models_loop_ok_usable (selected_models : list str)
    (models picked : list value) :
  picked_models_loop models selected_models = ok picked ->
  Forall (usable selected_models) models.
Proof.
  revert picked. induction models as [|model rest IH]; intros picked;
    [constructor|].
  cbn [picked_models_loop].
  destruct (subscript model k_name) as [x | n] eqn:Hn; [discriminate|].
  simpl rbind.
  assert (Hd : exists e, model = VDict e /\ dict_lookup e k_name = Some n).
  { destruct model as [| | | |s|l|e]; simpl in Hn; try discriminate.
    exists e. split; [reflexivity|].
    destruct (dict_lookup e k_name); [now injection Hn as -> | discriminate]. }
  destruct Hd as (e & -> & En).
  destruct (str_in n selected_models) eqn:Hsel.
  - destruct (extract (VDict e)) as [x | r] eqn:He; [discriminate|].
    simpl rbind.
    destruct (picked_models_loop rest selected_models) as [x | others];
      [discriminate|].
    intros _. constructor; [|now apply (IH others)].
    exists e. split; [reflexivity|]. split; [congruence|]. intros _.
    unfold extract in He. simpl in He. rewrite En in He. simpl in He.
    destruct (dict_lookup e k_columns); [|discriminate].
    destruct (dict_lookup e k_properties); [|discriminate].
    split; discriminate.
  - intros H. constructor; [|now apply (IH picked)].
    exists e. split; [reflexivity|]. split; [congruence|].
    unfold selected, name_of, dict_get. rewrite En, Hsel. discriminate.
Qed.

(** X10. For a descriptor whose ["models"] is a list: [picked_models]
    returns exactly when every model is a mapping with a ["name"] and every
    selected model also has ["columns"] and ["properties"]; models that are
    not selected need nothing but a name.  It then answers the selected
    models, reduced to the three keys, in order. *)
Theorem picked_models_returns_iff (mdl : dict) (models : list value)
    (selected_models : list str) :
  dict_lookup mdl k_models = Some (VList models) ->
  ((exists picked, picked_models mdl selected_models = ok picked)
   <-> Forall (usable selected_models) models)
  /\ (Forall (usable selected_models) models ->
      picked_models mdl selected_models
      = ok (List.map simplified
              (List.filter (selected selected_models) models))).
Proof.
  intros Hm.
  assert (Hp : picked_models mdl selected_models
               = picked_models_loop models selected_models).
  { unfold picked_models. simpl. now rewrite Hm. }
  rewrite Hp. split; [split|].
  - intros (picked & H). exact (picked_models_loop_ok_usable _ _ _ H).
  - intros H. eexists. now apply picked_models_loop_usable.
  - apply picked_models_loop_usable.
Qed.

(** A descriptor whose unselected model has nothing but a name. *)
Definition sparse_mdl : dict :=
  [(k_models, VList [table "orders"; VDict [(k_name, VStr (lit "draft"))]])].

Lemma picked_models_returns_iff_witness :
  dict_lookup sparse_mdl k_models
  = Some (VList [table "orders"; VDict [(k_name, VStr (lit "draft"))]])
  /\ picked_models sparse_mdl [lit "orders"]
     = ok [simplified (table "orders")]
  /\ ~ (exists picked, picked_models sparse_mdl [lit "draft"] = ok picked).
Proof.
  assert (Hm : dict_lookup sparse_mdl k_models
               = Some (VList [table "orders";
                              VDict [(k_name, VStr (lit "draft"))]]))
    by reflexivity.
  split; [exact Hm|]. split.
  - destruct (picked_models_returns_iff sparse_mdl _ [lit "orders"] Hm)
      as [_ H].
    rewrite H; [reflexivity|].
    constructor; [|constructor; [|constructor]].
    + exists [(k_name, VStr (lit "orders"));
              (k_columns,
               VList [VDict [(k_name, VStr (lit "id"));
                             (VStr (lit "type"), VStr (lit "integer"));
                             (k_properties, VDict [])]]);
              (VStr (lit "primaryKey"), VStr (lit "id"));
              (k_properties, VDict [])].
      split; [reflexivity|]. split; [discriminate|].
      intros _. split; discriminate.
    + exists [(k_name, VStr (lit "draft"))].
      split; [reflexivity|]. split; [discriminate|].
      intros H'. vm_compute in H'. discriminate H'.
  - destruct (picked_models_returns_iff sparse_mdl _ [lit "draft"] Hm)
      as [[H _] _].
    intros Hex. apply H in Hex.
    inversion Hex as [|? ? _ Hrest]; subst.
    inversion Hrest as [|? ? (e & He & _ & Hsel) _]; subst.
    injection He as <-.
    destruct (Hsel eq_refl) as [Hc _]. now apply Hc.
Defined.

(** X11. The name of every model is read, selected or not: a model without
    a ["name"], behind any number of entity records, makes
    [picked_models] raise [KeyError] for ["name"] under every selection,
    the empty one included. *)
Theorem picked_models_nameless_raises (mdl : dict)
    (before after : list value) (e : dict) (selected_models : list str) :
  dict_lookup mdl k_models = Some (VList (before ++ VDict e :: after)) ->
  Forall entity before ->
  dict_lookup e k_name = None ->
  picked_models mdl selected_models = raise (KeyError k_name).
Proof.
  intros Hm Hb He. unfold picked_models. simpl. rewrite Hm. simpl.
  clear Hm. induction Hb as [|model rest Hmodel _ IH].
  - simpl. now rewrite He.
  - destruct (entity_subscripts model Hmodel) as [Hn Hx].
    cbn [app picked_models_loop]. rewrite Hn. simpl rbind.
    destruct (str_in (name_of model) selected_models); [|exact IH].
    rewrite Hx, IH. reflexivity.
Qed.

Lemma picked_models_nameless_raises_witness :
  let mdl := [(k_models, VList ([table "orders"] ++ VDict [] :: []))] in
  dict_lookup mdl k_models = Some (VList ([table "orders"] ++ VDict [] :: []))
  /\ Forall entity [table "orders"]
  /\ dict_lookup [] k_name = None
  /\ picked_models mdl [] = raise (KeyError k_name).
Proof.
  intros mdl.
  assert (Hm : dict_lookup mdl k_models
               = Some (VList ([table "orders"] ++ VDict [] :: [])))
    by reflexivity.
  assert (Hb : Forall entity [table "orders"])
    by (constructor; [apply entity_table | constructor]).
  assert (He : dict_lookup [] k_name = None) by reflexivity.
  repeat (split; [assumption|]).
  exact (picked_models_nameless_raises mdl _ _ _ [] Hm Hb He).
Defined.

Lemma str_in_members (x : value) (s1 s2 : list str) :
  (forall s, In s s1 <-> In s s2) -> str_in x s1 = str_in x s2.
Proof.
  intros H. destruct x as [| | | |s| |]; try reflexivity. simpl.
  apply eq_true_iff_eq. rewrite !existsb_exists.
  split; intros (y & Hin & Hy); exists y; (split; [now apply H | exact Hy]).
Qed.

Lemma picked_models_loop_members (models : list value) (s1 s2 : list str) :
  (forall s, In s s1 <-> In s s2) ->
  picked_models_loop models s1 = picked_models_loop models s2.
Proof.
  intros H. induction models as [|model rest IH]; [reflexivity|].
  cbn [picked_models_loop].
  destruct (subscript model k_name) as [x | n]; [reflexivity|].
  simpl rbind. rewrite (str_in_members n s1 s2 H), IH. reflexivity.
Qed.

(** X12. Only the set of selected names matters: two selection lists with
    the same members, in any order and with any repetitions, give the same
    outcome on every descriptor, well-formed or not. *)
Theorem picked_models_selection_as_set (mdl : dict) (s1 s2 : list str) :
  (forall s, In s s1 <-> In s s2) ->
  picked_models mdl s1 = picked_models mdl s2.
Proof.
  intros H. unfold picked_models.
  destruct (subscript (VDict mdl) k_models) as [x | models]; [reflexivity|].
  simpl rbind. destruct (iterate models) as [x | items]; [reflexivity|].
  simpl rbind. now apply picked_models_loop_members.
Qed.

Lemma picked_models_selection_as_set_witness :
  (forall s, In s [lit "orders"; lit "customers"]
             <-> In s [lit "customers"; lit "orders"; lit "customers"])
  /\ picked_models example_mdl [lit "orders"; lit "customers"]
     = picked_models example_mdl [lit "customers"; lit "orders"; lit "customers"].
Proof.
  assert (H : forall s, In s [lit "orders"; lit "customers"]
                        <-> In s [lit "customers"; lit "orders"; lit "customers"]).
  { intros s. simpl. tauto. }
  split; [exact H|].
  exact (picked_models_selection_as_set example_mdl _ _ H).
Defined.

(** A record as [extract] builds it, for a selected name. *)
Definition picked_record (selected_models : list str) (r : value) : Prop :=
  exists s c p,
    In s selected_models
    /\ r = VDict [(k_name, VStr s); (k_columns, c); (k_properties, p)].

Lemma picked_models_loop_records (selected_models : list str)
    (models picked : list value) :
  picked_models_loop models selected_models = ok picked ->
  Forall (picked_record selected_models) picked
  /\ (length picked <= length models)%nat.
Proof.
  revert picked. induction models as [|model rest IH]; intros picked.
  - intros [= <-]. split; [constructor | simpl; lia].
  - cbn [picked_models_loop].
    destruct (subscript model k_name) as [x | n] eqn:Hn; [discriminate|].
    simpl rbind. destruct (str_in n selected_models) eqn:Hsel.
    + unfold extract. rewrite Hn. simpl rbind.
      destruct (subscript model k_columns) as [x | c]; [discriminate|].
      simpl rbind.
      destruct (subscript model k_properties) as [x | p]; [discriminate|].
      simpl rbind.
      destruct (picked_models_loop rest selected_models) as [x | others];
        [discriminate|].
      intros [= <-]. destruct (IH others eq_refl) as [Hf Hl].
      split; [|simpl; lia]. constructor; [|exact Hf].
      destruct n as [| | | |s| |]; try discriminate Hsel.
      exists s, c, p. split; [|reflexivity].
      simpl in Hsel. apply existsb_exists in Hsel as (y & Hin & Hy).
      apply str_eqb_eq in Hy. now subst y.
    + intros H. destruct (IH picked H) as [Hf Hl]. split; [exact Hf|].
      simpl. lia.
Qed.

(** X13. Whenever [picked_models] returns, on any descriptor: every record
    of the answer has exactly the keys name, columns and properties, in
    this order, its name is one of the selected strings, and there are at
    most as many records as the ["models"] list has models. *)
Theorem picked_models_records (mdl : dict) (models picked : list value)
    (selected_models : list str) :
  dict_lookup mdl k_models = Some (VList models) ->
  picked_models mdl selected_models = ok picked ->
  Forall (picked_record selected_models) picked
  /\ (length picked <= length models)%nat.
Proof.
  intros Hm. unfold picked_models. simpl. rewrite Hm. simpl.
  apply picked_models_loop_records.
Qed.

Lemma picked_models_records_witness :
  dict_lookup example_mdl k_models
  = Some (VList [table "orders"; table "products"; table "customers"])
  /\ picked_models example_mdl [lit "products"]
     = ok [simplified (table "products")]
  /\ Forall (picked_record [lit "products"]) [simplified (table "products")]
  /\ (length [simplified (table "products")] <= 3)%nat.
Proof.
  assert (Hm : dict_lookup example_mdl k_models
               = Some (VList [table "orders"; table "products";
                              table "customers"])) by reflexivity.
  assert (Hp : picked_models example_mdl [lit "products"]
               = ok [simplified (table "products")]) by reflexivity.
  split; [exact Hm|]. split; [exact Hp|].
  exact (picked_models_records example_mdl _ _ _ Hm Hp).
Defined.

Lemma picked_models_loop_again (selected_models : list str)
    (picked : list value) :
  Forall (picked_record selected_models) picked ->
  picked_models_loop picked selected_models = ok picked.
Proof.
  induction 1 as [|r rest (s & c & p & Hin & ->) _ IH]; [reflexivity|].
  set (r := VDict [(k_name, VStr s); (k_columns, c); (k_properties, p)]).
  assert (Hsub : subscript r k_name = ok (VStr s)) by reflexivity.
  assert (Hx : extract r = ok r) by reflexivity.
  assert (Hsel : str_in (VStr s) selected_models = true).
  { simpl. apply existsb_exists. exists s. split; [exact Hin|].
    apply str_eqb_refl. }
  cbn [picked_models_loop]. rewrite Hsub. cbn [rbind ok].
  rewrite Hsel, Hx. cbn [rbind ok]. rewrite IH. reflexivity.
Qed.

(** X14. Selecting twice is selecting once: when [picked_models] returns
    [picked], on any descriptor, then [picked_models] on the descriptor
    [{"models": picked}] with the same selection returns [picked] again. *)
Theorem picked_models_idempotent (mdl : dict) (picked : list value)
    (selected_models : list str) :
  picked_models mdl selected_models = ok picked ->
  picked_models [(k_models, VList picked)] selected_models = ok picked.
Proof.
  intros H.
  assert (Hf : Forall (picked_record selected_models) picked).
  { unfold picked_models in H.
    destruct (subscript (VDict mdl) k_models) as [x | models];
      [discriminate|].
    simpl in H. destruct (iterate models) as [x | items]; [discriminate|].
    simpl in H. now apply picked_models_loop_records in H as [Hf _]. }
  unfold picked_models.
  change (subscript (VDict [(k_models, VList picked)]) k_models)
    with (ok (VList picked) : result value).
  simpl. now apply picked_models_loop_again.
Qed.

Lemma picked_models_idempotent_witness :
  picked_models example_mdl [lit "customers"; lit "orders"]
  = ok [simplified (table "orders"); simplified (table "customers")]
  /\ picked_models
       [(k_models, VList [simplified (table "orders");
                          simplified (table "customers")])]
       [lit "customers"; lit "orders"]
     = ok [simplified (table "orders"); simplified (table "customers")].
Proof.
  assert (H : picked_models example_mdl [lit "customers"; lit "orders"]
              = ok [simplified (table "orders"); simplified (table "customers")])
    by reflexivity.
  split; [exact H|].
  exact (picked_models_idempotent example_mdl _ _ H).
Defined.

(** ** More on [run] (lines 172-188) and on the stages it sequences *)

Lemma picked_models_entities (mdl : dict) (entities : list value)
    (selected_models : list str) :
  schema_descriptor mdl entities ->
  picked_models mdl selected_models
  = ok (List.map simplified
          (List.filter (selected selected_models) entities)).
Proof.
  intros [Hm Hall]. unfold picked_models. simpl. rewrite Hm. simpl.
  now apply picked_models_loop_entities.
Qed.

(** X15. [run] sees the descriptor only through the selected entities'
    name, columns and properties: two descriptors whose selected entities
    agree on these three, in the same order, give the same trace and the
    same outcome, whatever else they hold (other entities, other keys). *)
Theorem run_depends_on_selected_only
    (loads : str -> result value) (self : components) (user_prompt : str)
    (selected_models : list str) (mdl1 mdl2 : dict)
    (entities1 entities2 : list value) :
  schema_descriptor mdl1 entities1 ->
  schema_descriptor mdl2 entities2 ->
  List.map simplified (List.filter (selected selected_models) entities1)
  = List.map simplified (List.filter (selected selected_models) entities2) ->
  run loads self user_prompt selected_models mdl1
  = run loads self user_prompt selected_models mdl2.
Proof.
  intros H1 H2 Heq. unfold run.
  rewrite (picked_models_entities mdl1 entities1 _ H1).
  rewrite (picked_models_entities mdl2 entities2 _ H2).
  now rewrite Heq.
Qed.

(** The orders table alone, with another primary key. *)
Definition orders_only_mdl : dict :=
  [(k_models,
    VList [VDict [(VStr (lit "primaryKey"), VStr (lit "order_id"));
                  (k_properties, VDict []);
                  (k_name, VStr (lit "orders"));
                  (k_columns,
                   VList [VDict [(k_name, VStr (lit "id"));
                                 (VStr (lit "type"), VStr (lit "integer"));
                                 (k_properties, VDict [])]])]])].

Lemma run_depends_on_selected_only_witness :
  run json_loads naming_pipeline (lit "orders") [lit "orders"] example_mdl
  = run json_loads naming_pipeline (lit "orders") [lit "orders"]
      orders_only_mdl.
Proof.
  apply (run_depends_on_selected_only json_loads naming_pipeline _ _ _ _
           [table "orders"; table "products"; table "customers"]
           [VDict [(VStr (lit "primaryKey"), VStr (lit "order_id"));
                   (k_properties, VDict []);
                   (k_name, VStr (lit "orders"));
                   (k_columns,
                    VList [VDict [(k_name, VStr (lit "id"));
                                  (VStr (lit "type"), VStr (lit "integer"));
                                  (k_properties, VDict [])]])]]).
  - split; [reflexivity|]. repeat constructor; apply entity_table.
  - split; [reflexivity|]. constructor; [|constructor].
    eexists _, _, _, _. split; [reflexivity|]. repeat split; reflexivity.
  - reflexivity.
Defined.

Lemma post_process_events_cases (loads : str -> result value)
    (generate : dict) :
  post_process loads generate = ([], outcome (post_process loads generate))
  \/ exists e, post_process loads generate
               = ([LogError (error_decoding e)], raise (KeyError k_models)).
Proof.
  destruct (first_reply generate) as [x | reply] eqn:Hr.
  - left. unfold post_process. fold (first_reply generate). now rewrite Hr.
  - rewrite (post_process_reply loads _ _ Hr).
    destruct reply as [| | | |text| |]; try (left; reflexivity).
    unfold normalize.
    destruct (loads (strip (normalize_text text))) as [x | v].
    + destruct x as [| | | |e|]; try (left; reflexivity).
      right. now exists e.
    + left. reflexivity.
Qed.

Lemma resume_cases (loads : str -> result value) (self : components)
    (p : value) :
  resume loads self p = ([], outcome (resume loads self p))
  \/ exists e, resume loads self p
               = ([LogError (error_decoding e)], raise (KeyError k_models)).
Proof.
  unfold resume. destruct (generator self p) as [x | g].
  - left. reflexivity.
  - rewrite mbind_ok.
    destruct (post_process_events_cases loads g) as [H | (e & H)]; rewrite H.
    + left. destruct (outcome (post_process loads g)); reflexivity.
    + right. now exists e.
Qed.

Lemma run_resume (loads : str -> result value) (self : components)
    (user_prompt : str) (selected_models : list str) (mdl : dict)
    (picked : list value) (p : dict) :
  picked_models mdl selected_models = ok picked ->
  prompt picked user_prompt (prompt_builder self) = ok p ->
  run loads self user_prompt selected_models mdl
  = (LogInfo running :: GeneratorRun (dict_get p k_prompt)
       :: events (resume loads self (dict_get p k_prompt)),
     outcome (resume loads self (dict_get p k_prompt))).
Proof. apply run_stages. Qed.

(** X16. The trace of [run] has one of three shapes, for all inputs,
    components and decoders.  When [picked_models] or the prompt builder
    raises: the info record alone, and the generator is not called.
    Otherwise: the info record and one generator call, followed by nothing,
    or by one error record, and then [run] raises [KeyError] for
    ["models"].  The generator is never called twice. *)
Theorem run_trace_shapes
    (loads : str -> result value) (self : components) (user_prompt : str)
    (selected_models : list str) (mdl : dict) :
  let r := run loads self user_prompt selected_models mdl in
  (events r = [LogInfo running]
   /\ exists e, outcome r = raise e
        /\ (picked_models mdl selected_models = raise e
            \/ exists picked,
                 picked_models mdl selected_models = ok picked
                 /\ prompt picked user_prompt (prompt_builder self) = raise e))
  \/ exists picked p,
       picked_models mdl selected_models = ok picked
       /\ prompt picked user_prompt (prompt_builder self) = ok p
       /\ (events r = [LogInfo running; GeneratorRun (dict_get p k_prompt)]
           \/ exists e,
                r = ([LogInfo running; GeneratorRun (dict_get p k_prompt);
                      LogError (error_decoding e)],
                     raise (KeyError k_models))).
Proof.
  intros r. subst r.
  set (req := {| req_user_prompt := user_prompt;
                 req_selected_models := selected_models;
                 req_mdl := mdl |}).
  change (run loads self user_prompt selected_models mdl)
    with (run_request loads self req).
  destruct (picked_models mdl selected_models) as [e | picked] eqn:Hpick.
  - left. rewrite (run_picked_models_raises loads self req e Hpick).
    split; [reflexivity|]. exists e. auto.
  - destruct (prompt picked user_prompt (prompt_builder self)) as [e | p]
      eqn:Hprompt.
    + left. rewrite (run_prompt_raises loads self req picked e Hpick Hprompt).
      split; [reflexivity|]. exists e. split; [reflexivity|].
      right. exists picked. split; [reflexivity | exact Hprompt].
    + right. exists picked, p. split; [reflexivity|]. split; [exact Hprompt|].
      unfold run_request, req. cbn [req_user_prompt req_selected_models req_mdl].
      rewrite (run_resume loads self _ _ _ _ _ Hpick Hprompt).
      destruct (resume_cases loads self (dict_get p k_prompt))
        as [H | (e & H)]; rewrite H.
      * left. reflexivity.
      * right. now exists e.
Qed.

(** X17. When [run] returns, every stage has returned: the answer is the
    mapping with the one key ["post_process"], bound to what
    [post_process] made of the generator's reply, and the trace is the info
    record and one generator call; nothing was logged as an error. *)
Theorem run_returns_stages
    (loads : str -> result value) (self : components) (user_prompt : str)
    (selected_models : list str) (mdl r : dict) :
  outcome (run loads self user_prompt selected_models mdl) = ok r ->
  exists picked p g m,
    picked_models mdl selected_models = ok picked
    /\ prompt picked user_prompt (prompt_builder self) = ok p
    /\ generator self (dict_get p k_prompt) = ok g
    /\ post_process loads g = ([], ok m)
    /\ run loads self user_prompt selected_models mdl
       = ([LogInfo running; GeneratorRun (dict_get p k_prompt)],
          ok [(k_post_process, VDict m)]).
Proof.
  set (req := {| req_user_prompt := user_prompt;
                 req_selected_models := selected_models;
                 req_mdl := mdl |}).
  change (run loads self user_prompt selected_models mdl)
    with (run_request loads self req).
  destruct (picked_models mdl selected_models) as [e | picked] eqn:Hpick.
  { rewrite (run_picked_models_raises loads self req e Hpick). discriminate. }
  destruct (prompt picked user_prompt (prompt_builder self)) as [e | p]
    eqn:Hprompt.
  { rewrite (run_prompt_raises loads self req picked e Hpick Hprompt).
    discriminate. }
  unfold run_request, req. cbn [req_user_prompt req_selected_models req_mdl].
  rewrite (run_resume loads self _ _ _ _ _ Hpick Hprompt).
  unfold resume.
  destruct (generator self (dict_get p k_prompt)) as [e | g] eqn:Hg;
    [discriminate|].
  rewrite mbind_ok.
  destruct (post_process_events_cases loads g) as [H | (e & H)]; rewrite H;
    [|discriminate].
  destruct (outcome (post_process loads g)) as [e | m]; [discriminate|].
  cbn. intros [= <-]. exists picked, p, g, m. auto.
Qed.

Lemma run_returns_stages_witness :
  outcome (run json_loads naming_pipeline (lit "orders") [lit "orders"]
             example_mdl)
  = ok [(k_post_process,
         VDict [(VStr (lit "orders"), VDict [(k_name, VStr (lit "orders"))])])]
  /\ exists picked p g m,
       picked_models example_mdl [lit "orders"] = ok picked
       /\ prompt picked (lit "orders") (prompt_builder naming_pipeline) = ok p
       /\ generator naming_pipeline (dict_get p k_prompt) = ok g
       /\ post_process json_loads g = ([], ok m)
       /\ run json_loads naming_pipeline (lit "orders") [lit "orders"]
            example_mdl
          = ([LogInfo running; GeneratorRun (dict_get p k_prompt)],
             ok [(k_post_process, VDict m)]).
Proof.
  assert (H : outcome (run json_loads naming_pipeline (lit "orders")
                         [lit "orders"] example_mdl)
              = ok [(k_post_process,
                     VDict [(VStr (lit "orders"),
                             VDict [(k_name, VStr (lit "orders"))])])])
    by (vm_compute; reflexivity).
  split; [exact H|].
  exact (run_returns_stages json_loads naming_pipeline _ _ _ _ H).
Defined.

(** ** More on invocations that share an instance *)

Definition is_generator_run (ev : event) : bool :=
  match ev with
  | GeneratorRun _ => true
  | _ => false
  end.

(** The number of calls of the generator in a trace. *)
Definition generator_calls (evs : list event) : nat :=
  length (List.filter is_generator_run evs).

(** An invocation that has not called the generator, and may still. *)
Definition uncalled (t : task) : bool :=
  match t with
  | Ready _ | Logged _ _ | Picked _ _ _ | Prompted _ _ => true
  | _ => false
  end.

Definition uncalled_count (ts : list task) : nat :=
  length (List.filter uncalled ts).

Lemma generator_calls_app (a b : list event) :
  generator_calls (a ++ b) = (generator_calls a + generator_calls b)%nat.
Proof. unfold generator_calls. now rewrite List.filter_app, length_app. Qed.

Lemma uncalled_count_insert (ts : list task) (i : nat) (t t' : task) :
  ts !! i = Some t ->
  (uncalled_count (<[i := t']> ts) + (if uncalled t then 1 else 0)
   = uncalled_count ts + (if uncalled t' then 1 else 0))%nat.
Proof.
  unfold uncalled_count. revert i.
  induction ts as [|a ts IH]; intros i; [discriminate|].
  destruct i as [|i]; simpl.
  - intros [= ->]. destruct (uncalled t), (uncalled t'); simpl; lia.
  - intros H. specialize (IH i H). destruct (uncalled a); simpl; lia.
Qed.

Lemma uncalled_count_le (ts : list task) :
  (uncalled_count ts <= length ts)%nat.
Proof. unfold uncalled_count. apply List.filter_length_le. Qed.

Lemma finish_calls (loads : str -> result value) (g : dict) :
  generator_calls (events (finish loads g)) = 0%nat.
Proof.
  unfold finish.
  destruct (post_process_events_cases loads g) as [H | (e & H)]; rewrite H.
  - destruct (outcome (post_process loads g)); reflexivity.
  - reflexivity.
Qed.

Lemma advance_calls (loads : str -> result value) (self : pipeline)
    (h : Store.store) (t : task) :
  (generator_calls (advance loads self h t).1.2
   + (if uncalled (advance loads self h t).2 then 1 else 0)
   <= (if uncalled t then 1 else 0))%nat.
Proof.
  destruct t as [inv | inv c | inv c picked | c p | c p | g | r];
    cbn [advance].
  - unfold generator_calls. simpl. lia.
  - destruct (Store.picked_models _ _ _) as [[e | picked] h'];
      unfold generator_calls; simpl; lia.
  - destruct (shared_prompt_builder _ _ _ _);
      unfold generator_calls; simpl; lia.
  - unfold generator_calls. simpl. lia.
  - destruct (shared_generator _ _); unfold generator_calls; simpl; lia.
  - cbn [fst snd uncalled]. rewrite finish_calls. lia.
  - unfold generator_calls. simpl. lia.
Qed.

Lemma turn_calls (loads : str -> result value) (sys : system) (i : nat) :
  length (tasks (turn loads sys i)) = length (tasks sys)
  /\ (generator_calls (trace (turn loads sys i))
      + uncalled_count (tasks (turn loads sys i))
      <= generator_calls (trace sys) + uncalled_count (tasks sys))%nat.
Proof.
  unfold turn. destruct (tasks sys !! i) as [t|] eqn:Ht; [|split; lia].
  pose proof (advance_calls loads (instance sys) (heap sys) t) as Hc.
  destruct (advance loads (instance sys) (heap sys) t)
    as [[[self' h'] evs] t'].
  simpl in *. split; [apply length_insert|].
  rewrite generator_calls_app.
  pose proof (uncalled_count_insert (tasks sys) i t t' Ht) as Hi. lia.
Qed.

Lemma exec_calls (loads : str -> result value) (schedule : list nat)
    (sys : system) :
  length (tasks (exec loads schedule sys)) = length (tasks sys)
  /\ (generator_calls (trace (exec loads schedule sys))
      + uncalled_count (tasks (exec loads schedule sys))
      <= generator_calls (trace sys) + uncalled_count (tasks sys))%nat.
Proof.
  revert sys. induction schedule as [|i rest IH]; intros sys;
    [unfold exec; cbn [fold_left]; split; lia|].
  change (exec loads (i :: rest) sys) with (exec loads rest (turn loads sys i)).
  destruct (IH (turn loads sys i)) as [Hl Hc].
  destruct (turn_calls loads sys i) as [Hl' Hc']. split; lia.
Qed.

(** X18. However the scheduler interleaves the stages of the invocations
    that share an instance, on any store and with any components, the
    generator is called at most once per invocation: the calls in the
    shared trace and the invocations that have not called yet never
    outnumber the invocations. *)
Theorem scheduler_calls_generator_once_each
    (loads : str -> result value) (self : pipeline) (h : Store.store)
    (invs : list invocation) (schedule : list nat) :
  let final := exec loads schedule (start self h invs) in
  (generator_calls (trace final) + uncalled_count (tasks final)
   <= length invs)%nat.
Proof.
  intros final. destruct (exec_calls loads schedule (start self h invs))
    as [_ Hc]. fold final in Hc.
  pose proof (uncalled_count_le (tasks (start self h invs))) as Hr.
  simpl in Hc, Hr. rewrite length_map in Hr.
  change (generator_calls []) with 0%nat in Hc. lia.
Qed.

(** ** More on [picked_models] over the object store *)

(** What the store above the descriptor at location 1 stands for. *)
Definition example_store_mdl : dict :=
  Eval vm_compute in
    match reify 4 example_store (Store.RObj 1%positive) with
    | Some (VDict m) => m
    | _ => []
    end.

Lemma picked_models_store_agrees_witness :
  reify 4 example_store (Store.RObj 1%positive) = Some (VDict example_store_mdl)
  /\ exists out h',
       Store.picked_models (Store.RObj 1%positive) [lit "orders"] example_store
       = (ok (Store.RObj out), h')
       /\ example_store !! out = None
       /\ reify 6 h' (Store.RObj out)
          = Some (VList [VDict [(k_name, VStr (lit "orders"));
                                (k_columns, VList []);
                                (k_properties, VDict [])]]).
Proof.
  assert (Hm : reify 4 example_store (Store.RObj 1%positive)
               = Some (VDict example_store_mdl)) by (vm_compute; reflexivity).
  split; [exact Hm|].
  pose proof (picked_models_store_agrees 4 example_store (Store.RObj 1%positive)
                example_store_mdl [lit "orders"] Hm) as H.
  assert (Hp : picked_models example_store_mdl [lit "orders"]
               = ok [VDict [(k_name, VStr (lit "orders"));
                            (k_columns, VList []);
                            (k_properties, VDict [])]]) by reflexivity.
  rewrite Hp in H. exact H.
Defined.

(** Every object but [out] is in [h'] as it is in [h]. *)
Definition kept (out : Store.loc) (h h' : Store.store) : Prop :=
  forall l o, l <> out -> h !! l = Some o -> h' !! l = Some o.

(** A record that is new with respect to [h0] and whose three slots hold
    what the slots of one of the [models] hold. *)
Definition shares (h0 h : Store.store) (models : list Store.ref)
    (r : Store.ref) : Prop :=
  exists l a b c model,
    r = Store.RObj l /\ h0 !! l = None /\ In model models
    /\ h !! l = Some (Store.ODict [(Store.r_name, a); (Store.r_columns, b);
                                   (Store.r_properties, c)])
    /\ Store.subscript model Store.r_name h = (ok a, h)
    /\ Store.subscript model Store.r_columns h = (ok b, h)
    /\ Store.subscript model Store.r_properties h = (ok c, h).

Lemma subscript_kept (out : Store.loc) (h h' : Store.store)
    (acc : list Store.ref) (o r : Store.ref) (s : str) :
  h !! out = Some (Store.OList acc) -> kept out h h' ->
  Store.subscript o (Store.RStr s) h = (ok r, h) ->
  Store.subscript o (Store.RStr s) h' = (ok r, h').
Proof.
  intros Hout Hk. unfold Store.subscript.
  destruct o as [| | | | |l]; try discriminate.
  destruct (h !! l) as [[items | d]|] eqn:Hl; try discriminate.
  assert (Hne : l <> out) by (intros ->; congruence).
  rewrite (Hk _ _ Hne Hl). simpl.
  destruct (Store.entries_lookup d (Store.RStr s)); [|discriminate].
  now intros [= ->].
Qed.

Lemma shares_kept (out : Store.loc) (h0 h h' : Store.store)
    (acc : list Store.ref) (models : list Store.ref) (r : Store.ref) :
  h !! out = Some (Store.OList acc) -> kept out h h' ->
  shares h0 h models r -> shares h0 h' models r.
Proof.
  intros Hout Hk (l & a & b & c & model & -> & Hnew & Hin & Hl & Ha & Hb & Hc).
  exists l, a, b, c, model.
  assert (Hne : l <> out) by (intros ->; congruence).
  repeat split; auto; eapply subscript_kept; eauto.
Qed.

Lemma extract_returns (model r : Store.ref) (h h1 : Store.store) :
  Store.extract model h = (ok r, h1) ->
  exists a b c,
    r = Store.RObj (fresh (dom h))
    /\ h1 = <[fresh (dom h) :=
                Store.ODict [(Store.r_name, a); (Store.r_columns, b);
                             (Store.r_properties, c)]]> h
    /\ Store.subscript model Store.r_name h = (ok a, h)
    /\ Store.subscript model Store.r_columns h = (ok b, h)
    /\ Store.subscript model Store.r_properties h = (ok c, h).
Proof.
  unfold Store.extract, Store.sbind.
  destruct (Store.subscript model Store.r_name h) as [[e | a] ha] eqn:Ha;
    [discriminate|].
  pose proof (Store.subscript_store model Store.r_name h) as Hh.
  rewrite Ha in Hh. simpl in Hh. subst ha.
  destruct (Store.subscript model Store.r_columns h) as [[e | b] hb] eqn:Hb;
    [discriminate|].
  pose proof (Store.subscript_store model Store.r_columns h) as Hh.
  rewrite Hb in Hh. simpl in Hh. subst hb.
  destruct (Store.subscript model Store.r_properties h) as [[e | c] hc]
    eqn:Hc; [discriminate|].
  pose proof (Store.subscript_store model Store.r_properties h) as Hh.
  rewrite Hc in Hh. simpl in Hh. subst hc.
  unfold Store.alloc, Store.sret. intros [= <- <-].
  exists a, b, c. auto.
Qed.

Section Sharing.

Variable h0 : Store.store.
Variable out : Store.loc.
Variable all_models : list Store.ref.
Variable selected_models : list str.
Hypothesis out_new : h0 !! out = None.

Lemma loop_shares (models : list Store.ref) :
  forall (h h' : Store.store) (acc : list Store.ref),
    (forall m, In m models -> In m all_models) ->
    Store.preserved h0 h ->
    h !! out = Some (Store.OList acc) ->
    Store.picked_models_loop out models selected_models h = (ok tt, h') ->
    kept out h h'
    /\ exists acc',
         h' !! out = Some (Store.OList (acc ++ acc'))
         /\ Forall (shares h0 h' all_models) acc'.
Proof.
  induction models as [|model rest IH]; intros h h' acc Hsub Hp Hout.
  - intros [= <-]. split; [intros l o _ H; exact H|].
    exists []. rewrite app_nil_r. split; [exact Hout | constructor].
  - cbn [Store.picked_models_loop]. unfold Store.sbind at 1.
    destruct (Store.subscript model Store.r_name h) as [[e | name] hn]
      eqn:Hn; [intros Habs; inversion Habs|].
    pose proof (Store.subscript_store model Store.r_name h) as Hh.
    rewrite Hn in Hh. simpl in Hh. subst hn.
    assert (Hrest : forall m, In m rest -> In m all_models)
      by (intros m Hm; apply Hsub; now right).
    destruct (Store.ref_in name selected_models);
      [|exact (IH h h' acc Hrest Hp Hout)].
    unfold Store.sbind at 1.
    destruct (Store.extract model h) as [[e | picked] h1] eqn:He;
      [intros Habs; inversion Habs|].
    destruct (extract_returns _ _ _ _ He)
      as (a & b & c & -> & -> & Ha & Hb & Hc).
    set (l := fresh (dom h)) in *.
    set (rec := Store.ODict [(Store.r_name, a); (Store.r_columns, b);
                             (Store.r_properties, c)]) in *.
    assert (Hl : h !! l = None) by (apply not_elem_of_dom, is_fresh).
    assert (Hlo : l <> out) by (intros E; rewrite E in Hl; congruence).
    assert (Hl0 : h0 !! l = None).
    { destruct (h0 !! l) as [o|] eqn:E; [|reflexivity].
      apply Hp in E. congruence. }
    unfold Store.sbind at 1. unfold Store.append at 1.
    rewrite lookup_insert_ne by exact Hlo. rewrite Hout.
    set (h2 := <[out := Store.OList (acc ++ [Store.RObj l])]> (<[l := rec]> h)).
    assert (Hk2 : kept out h h2).
    { intros l' o' Hne H'. unfold h2.
      rewrite lookup_insert_ne by congruence.
      rewrite lookup_insert_ne by (intros E; rewrite <- E in H'; congruence).
      exact H'. }
    assert (Hp2 : Store.preserved h0 h2).
    { intros l' o' H'. apply Hk2; [intros ->; congruence | now apply Hp]. }
    assert (Hout2 : h2 !! out = Some (Store.OList (acc ++ [Store.RObj l])))
      by apply lookup_insert_eq.
    intros Hloop.
    destruct (IH h2 h' _ Hrest Hp2 Hout2 Hloop) as (Hk' & acc' & Hout' & Hf).
    split.
    + intros l' o' Hne H'. apply Hk'; [exact Hne|]. now apply Hk2.
    + exists (Store.RObj l :: acc'). rewrite <- app_assoc in Hout'.
      split; [exact Hout'|]. constructor; [|exact Hf].
      apply (shares_kept out h0 h2 h' _ all_models _ Hout2 Hk').
      exists l, a, b, c, model. repeat split; auto.
      * apply Hsub. now left.
      * unfold h2. rewrite lookup_insert_ne by congruence.
        apply lookup_insert_eq.
      * exact (subscript_kept out h h2 acc _ _ _ Hout Hk2 Ha).
      * exact (subscript_kept out h h2 acc _ _ _ Hout Hk2 Hb).
      * exact (subscript_kept out h h2 acc _ _ _ Hout Hk2 Hc).
Qed.

End Sharing.

(** X20. [extract] copies references, not objects.  When [picked_models]
    returns, its answer is a list that did not exist before the call, and
    every record in it is a new mapping whose name, columns and properties
    slots hold the very objects that the slots of one of the descriptor's
    models hold: the picked records share their columns and properties
    with the input. *)
Theorem picked_models_shares_slots (mdl r : Store.ref)
    (selected_models : list str) (h h' : Store.store) :
  Store.picked_models mdl selected_models h = (ok r, h') ->
  exists out models items records,
    r = Store.RObj out /\ h !! out = None
    /\ Store.subscript mdl Store.r_models h = (ok models, h)
    /\ Store.iterate models h = (ok items, h)
    /\ h' !! out = Some (Store.OList records)
    /\ Forall (shares h h' items) records.
Proof.
  unfold Store.picked_models. unfold Store.sbind at 1.
  destruct (Store.subscript mdl Store.r_models h) as [[e | models] h1] eqn:Hs;
    [intros Habs; inversion Habs|].
  pose proof (Store.subscript_store mdl Store.r_models h) as Hh.
  rewrite Hs in Hh. simpl in Hh. subst h1.
  unfold Store.sbind at 1.
  destruct (Store.iterate models h) as [[e | items] h1] eqn:Hi;
    [intros Habs; inversion Habs|].
  pose proof (Store.iterate_store models h) as Hh.
  rewrite Hi in Hh. simpl in Hh. subst h1.
  unfold Store.sbind at 1. unfold Store.alloc at 1.
  set (out := fresh (dom h)).
  assert (Hout : h !! out = None) by (apply not_elem_of_dom, is_fresh).
  unfold Store.sbind, Store.sret, ok. cbn beta iota.
  destruct (Store.picked_models_loop out items selected_models
              (<[out := Store.OList []]> h)) as [[e | []] h2] eqn:Hl;
    [intros Habs; inversion Habs|].
  intros [= <- <-].
  assert (Hp : Store.preserved h (<[out := Store.OList []]> h)).
  { intros l o H. rewrite lookup_insert_ne; [exact H|].
    intros <-. congruence. }
  destruct (loop_shares h out items selected_models Hout items
              (<[out := Store.OList []]> h) h2 []
              (fun m H => H) Hp (lookup_insert_eq _ _ _) Hl)
    as (_ & records & Hrec & Hf).
  exists out, models, items, records. simpl in Hrec.
  repeat split; first [reflexivity | assumption].
Qed.

Lemma picked_models_shares_slots_witness :
  exists h',
    Store.picked_models (Store.RObj 1%positive) [lit "orders"] example_store
    = (ok (Store.RObj 9%positive), h')
    /\ exists out models items records,
         Store.RObj 9%positive = Store.RObj out
         /\ example_store !! out = None
         /\ Store.subscript (Store.RObj 1%positive) Store.r_models example_store
            = (ok models, example_store)
         /\ Store.iterate models example_store = (ok items, example_store)
         /\ h' !! out = Some (Store.OList records)
         /\ Forall (shares example_store h' items) records.
Proof.
  eexists.
  assert (H : Store.picked_models (Store.RObj 1%positive) [lit "orders"]
                example_store
              = (ok (Store.RObj 9%positive),
                 snd (Store.picked_models (Store.RObj 1%positive)
                        [lit "orders"] example_store)))
    by (vm_compute; reflexivity).
  split; [exact H|].
  exact (picked_models_shares_slots _ _ _ _ _ H).
Defined.
